(** * Parabolic Stop and Reverse (pandas_ta.trend.psar) and BRAR
      (pandas_ta.momentum.brar): a shallow embedding and its properties.

    Numbers: a Python float is modelled as an exact rational ([Q]); a
    missing value (NaN) of a pandas column is [None].  Rounding, infinities
    and NaN prices are outside the model.  A Series is a list in index
    order (default RangeIndex). *)

From stdpp Require Import base list.
From Stdlib Require Import ZArith QArith Qminmax Qabs Lia Lqa.

Local Open Scope Q_scope.

(** ** Values, series and columns *)

(** An input series of finite prices. *)
Abbreviation Prices := (list Q).

(** A float column that may hold NaN ([None]). *)
Abbreviation Column := (list (option Q)).

(** Python exceptions.  [InvalidInput] and [InvalidParameter] are the error
    kinds the specification names; no code path below raises them. *)
Inductive exn := IndexError | ValueError | AttributeError | InvalidInput | InvalidParameter.

Inductive result (A : Type) : Type :=
| Ok (a : A)
| Raise (e : exn).
Arguments Ok {A} a.
Arguments Raise {A} e.

#[global] Instance result_ret : MRet result := fun A a => Ok a.

#[global] Instance result_bind : MBind result := fun A B k m =>
  match m with
  | Ok a => k a
  | Raise e => Raise e
  end.

(** A [for] loop whose body may raise. *)
Fixpoint foldM {A B} (f : B → A → result A) (l : list B) (a : A) : result A :=
  match l with
  | [] => Ok a
  | x :: l' => a' ← f x a; foldM f l' a'
  end.

(** [x < y] and [x > y] on floats. *)
Definition Qltb (x y : Q) : bool :=
  match x ?= y with Lt => true | _ => false end.

(** Comparison with a NaN operand is False. *)
Definition nan_lt (x y : option Q) : bool :=
  match x, y with
  | Some a, Some b => Qltb a b
  | _, _ => false
  end.

Definition nan_sub (x y : option Q) : option Q :=
  match x, y with
  | Some a, Some b => Some (a - b)
  | _, _ => None
  end.

Definition to_col (p : Prices) : Column := map Some p.

(** [s.iat[i]] / [s.iloc[i]] for [0 <= i]: IndexError out of bounds. *)
Definition iat {A} (s : list A) (i : nat) : result A :=
  match s !! i with
  | Some x => Ok x
  | None => Raise IndexError
  end.

(** [s.iloc[-1]]. *)
Definition iloc_last {A} (s : list A) : result A :=
  match last s with
  | Some x => Ok x
  | None => Raise IndexError
  end.

(** [s.shift(k)]: values move [k] places towards the end ([k < 0]: towards
    the start); vacated places hold NaN, the length is kept. *)
Definition shift (k : Z) (c : Column) : Column :=
  let n := length c in
  if (0 <=? k)%Z
  then take n (replicate (Z.to_nat k) None ++ c)
  else drop (Z.to_nat (- k)) c ++ replicate (Nat.min (Z.to_nat (- k)) n) None.

(** [a - b] on two columns of one index. *)
Definition col_sub (a b : Column) : Column := zip_with nan_sub a b.

(** [a > b] on two columns: pandas compares identically labelled Series
    only and raises ValueError otherwise. *)
Definition col_gt (a b : Column) : result (list bool) :=
  if Nat.eqb (length a) (length b)
  then Ok (zip_with (fun x y => nan_lt y x) a b)
  else Raise ValueError.

(** [mask * col]: True is 1, False is 0. *)
Definition bool_mul (b : bool) (x : option Q) : option Q :=
  match x with
  | Some v => Some ((if b then 1 else 0) * v)
  | None => None
  end.

(** [s.fillna(v)] *)
Definition fillna_value (v : Q) (c : Column) : Column :=
  map (fun x => match x with Some _ => x | None => Some v end) c.

Inductive FillMethod := ffill | bfill.

Fixpoint ffill_from (prev : option Q) (c : Column) : Column :=
  match c with
  | [] => []
  | Some v :: c' => Some v :: ffill_from (Some v) c'
  | None :: c' => prev :: ffill_from prev c'
  end.

(** [s.fillna(method=m)] *)
Definition fillna_method (m : FillMethod) (c : Column) : Column :=
  match m with
  | ffill => ffill_from None c
  | bfill => reverse (ffill_from None (reverse c))
  end.

(** The keyword arguments the indicators read: [None] is an absent key. *)
Record kwargs := { fillna : option Q; fill_method : option FillMethod }.

Definition no_kwargs : kwargs := {| fillna := None; fill_method := None |}.

(** The "Fill" stage shared by the indicators, for one column. *)
Definition fill (kw : kwargs) (c : Column) : Column :=
  let c := match fillna kw with Some v => fillna_value v c | None => c end in
  match fill_method kw with Some m => fillna_method m c | None => c end.

(** The exceptions a computation can raise all satisfy [P]. *)
Definition raises_within {A} (P : exn → Prop) (m : result A) : Prop :=
  ∀ e, m = Raise e → P e.

(** The errors of indexing and of comparing two series. *)
Definition lookup_error (e : exn) : Prop := e = IndexError ∨ e = ValueError.

(** ** Helpers of pandas_ta.utils *)

Module Utils.

(** Modelled from the spec: [v_series] of pandas_ta.utils is not among the
    sources.  The indicators call it as a validator ("validate inputs") and
    return nothing when it yields None: it gives the series back when it
    holds at least [length] values, and None otherwise. *)
Definition v_series (series : Prices) (length : nat) : option Prices :=
  if (length <=? List.length series)%nat then Some series else None.

(** Modelled from the spec: [v_pos_default] of pandas_ta.utils is not among
    the sources.  The parameters "must be > 0" and have a default: a
    supplied positive number is kept, anything else is replaced by the
    default. *)
Definition v_pos_default (var : option Q) (default : Q) : Q :=
  match var with
  | Some v => if Qltb 0 v then v else default
  | None => default
  end.

(** Modelled from the spec: [v_offset] (and [get_offset]) of pandas_ta.utils
    is not among the sources.  The offset is an optional integer shift: a
    supplied integer is kept, an absent one is 0. *)
Definition v_offset (var : option Z) : Z :=
  match var with
  | Some k => k
  | None => 0%Z
  end.

(** Modelled from the spec: [zero] of pandas_ta.utils is not among the
    sources.  The spec reads the seed test as the plain sign test
    "dn > up AND dn > 0", so [zero] sends a value that is zero to 0 and
    gives every other value back unchanged. *)
Definition zero (x : Q) : Q := if Qeq_bool x 0 then 0 else x.

(** Modelled from the spec: [verify_series] of pandas_ta.utils, the validator
    of the other indicators, is not among the sources; it is used exactly
    as [v_series] is. *)
Definition verify_series (series : Prices) (length : nat) : option Prices :=
  v_series series length.

(** Modelled from the spec: [get_offset] of pandas_ta.utils is not among the
    sources; it is used exactly as [v_offset] is. *)
Definition get_offset (var : option Z) : Z := v_offset var.

(** Modelled from the spec: [get_drift] of pandas_ta.utils is not among the
    sources.  The drift is the difference period of the indicators, 1 by
    default (docstring of brar): a supplied non-zero integer is kept. *)
Definition get_drift (var : option Z) : Z :=
  match var with
  | Some d => if (d =? 0)%Z then 1%Z else d
  | None => 1%Z
  end.

End Utils.

(** ** psar *)

Module Psar.
Import Utils.

(** [_falling(high, low, drift)]: the sign of the last -DM value. *)
Definition _falling (high low : Prices) (drift : Z) : result bool :=
  let high := to_col high in
  let low := to_col low in
  let up := col_sub high (shift drift high) in
  let dn := col_sub (shift drift low) low in
  gt ← col_gt dn up;
  let pos := map (fun x => nan_lt (Some 0) x) dn in
  let mask := zip_with andb gt pos in
  let prod := zip_with bool_mul mask dn in
  _dmn ← iloc_last (map (option_map zero) prod);
  Ok (nan_lt (Some 0) _dmn).

(** The scalars carried by the loop. *)
Record State := { sar : Q; ep : Q; af : Q; falling : bool }.

(** The four output columns. *)
Record Cols := { long : Column; short : Column; _af : Column; reversal : Column }.

Section Loop.
(** The validated inputs and the effective parameters ([paf] is the
    increment, [af0] the initial factor). *)
Variables (high low : Prices) (paf af0 max_af : Q) (tv : bool).

(** Lines 83-118 of the loop body: the new scalars and the [reverse] flag. *)
Definition advance (row : nat) (s : State) : result (State * bool) :=
  high_ ← iat high row;
  low_ ← iat low row;
  let _sar := sar s + af s * (ep s - sar s) in
  '(reverse, ep1, af1, _sar) ←
    (if falling s then
       let reverse := Qltb _sar high_ in
       let '(ep1, af1) :=
         if Qltb low_ (ep s) then (low_, Qmin (af s + paf) max_af)
         else (ep s, af s) in
       h1 ← iat high (row - 1);
       h2 ← iat high (row - 2);
       Ok (reverse, ep1, af1, Qmax (Qmax h1 h2) _sar)
     else
       let reverse := Qltb low_ _sar in
       let '(ep1, af1) :=
         if Qltb (ep s) high_ then (high_, Qmin (af s + paf) max_af)
         else (ep s, af s) in
       l1 ← iat low (row - 1);
       l2 ← iat low (row - 2);
       Ok (reverse, ep1, af1, Qmin (Qmin l1 l2) _sar));
  if reverse : bool then
    _sar ←
      (if tv then
         if falling s then
           l1 ← iat low (row - 1);
           l2 ← iat low (row - 2);
           Ok (Qmin (Qmin l1 l2) ep1)
         else
           h1 ← iat high (row - 1);
           h2 ← iat high (row - 2);
           Ok (Qmax (Qmax h1 h2) ep1)
       else Ok ep1);
    let falling1 := negb (falling s) in
    Ok ({| sar := _sar; ep := if falling1 then low_ else high_;
           af := af0; falling := falling1 |}, true)
  else
    Ok ({| sar := _sar; ep := ep1; af := af1; falling := falling s |}, false).

(** Lines 120-127: the row of the four columns. *)
Definition record (row : nat) (s : State) (reverse : bool) (c : Cols) : Cols :=
  {| long := if falling s then long c else <[row := Some (sar s)]> (long c);
     short := if falling s then <[row := Some (sar s)]> (short c) else short c;
     _af := <[row := Some (af s)]> (_af c);
     reversal := <[row := Some (if reverse then 1 else 0)]> (reversal c) |}.

(** One iteration of [for row in range(2, m)]. *)
Definition step (row : nat) (sc : State * Cols) : result (State * Cols) :=
  '(s, reverse) ← advance row (fst sc);
  Ok (s, record row s reverse (snd sc)).

Definition loop (rows : list nat) (sc : State * Cols) : result (State * Cols) :=
  foldM step rows sc.

(** Lines 74-78: the columns before the loop. *)
Definition init_cols (m : nat) : Cols :=
  {| long := replicate m None;
     short := replicate m None;
     reversal := replicate m (Some 0);
     _af := <[1%nat := Some af0]> (<[0%nat := Some af0]> (replicate m (Some 0))) |}.

(** Lines 61-72: the seed of the recurrence. *)
Definition init_state (close : option Prices) : result State :=
  falling0 ← _falling (take 2 high) (take 2 low) 1;
  h0 ← iat high 0;
  l0 ← iat low 0;
  let '(sar0, ep0) := if falling0 : bool then (h0, l0) else (l0, h0) in
  sar0 ←
    match close with
    | Some c =>
        match v_series c 0 with
        | Some c => iat c 0
        | None => Raise AttributeError
        end
    | None => Ok sar0
    end;
  Ok {| sar := sar0; ep := ep0; af := af0; falling := falling0 |}.

(** The scalars and columns after the rows [2 .. 2 + k - 1]. *)
Definition run (close : option Prices) (k : nat) : result (State * Cols) :=
  s0 ← init_state close;
  loop (seq 2 k) (s0, init_cols (length high)).

(** The scalars after step [i] (for [i = 1]: the seed). *)
Definition state_after (close : option Prices) (i : nat) : result State :=
  sc ← run close (i - 1); Ok (fst sc).
End Loop.

(** The returned frame: its four columns and the two numbers of its label
    [PSAR_{af0}_{max_af}]. *)
Record DataFrame := {
  PSARl : Column; PSARs : Column; PSARaf : Column; PSARr : Column;
  params : Q * Q }.

(** [psar(high, low, close, af0, af, max_af, tv, offset, **kwargs)];
    [Ok None] is the bare [return]. *)
Definition psar (high low : Prices) (close : option Prices)
    (af0 af max_af : option Q) (tv : bool) (offset : option Z) (kw : kwargs)
  : result (option DataFrame) :=
  match v_series high 1, v_series low 1 with
  | Some high, Some low =>
      let paf := v_pos_default af 0.02 in
      let af0 := v_pos_default af0 paf in
      let max_af := v_pos_default max_af 0.2 in
      let offset := v_offset offset in
      let m := length high in
      sc ← run high low paf af0 max_af tv close (m - 2);
      let c := snd sc in
      let post (col : Column) : Column :=
        fill kw (if (offset =? 0)%Z then col else shift offset col) in
      Ok (Some {| PSARl := post (long c); PSARs := post (short c);
                  PSARaf := post (_af c); PSARr := post (reversal c);
                  params := (af0, max_af) |})
  | _, _ => Ok None
  end.

(** The inputs the specification calls valid: [high] and [low] aligned,
    at least the two seed bars, [close] (when given) aligned too. *)
Definition valid_input (high low : Prices) (close : option Prices) : Prop :=
  length high = length low ∧ (2 ≤ length high)%nat ∧
  match close with Some c => length c = length high | None => True end.

(** Row [i] of the columns holds what the loop writes for the scalars [s]
    and the flag [r]. *)
Definition row_ok (i : nat) (s : State) (r : bool) (c : Cols) : Prop :=
  long c !! i = Some (if falling s then None else Some (sar s)) ∧
  short c !! i = Some (if falling s then Some (sar s) else None) ∧
  _af c !! i = Some (Some (af s)) ∧
  reversal c !! i = Some (Some (if r then 1 else 0)).

(** Row [i] is the same in both. *)
Definition row_same (i : nat) (c c' : Cols) : Prop :=
  long c !! i = long c' !! i ∧ short c !! i = short c' !! i ∧
  _af c !! i = _af c' !! i ∧ reversal c !! i = reversal c' !! i.

Definition cols_len (m : nat) (c : Cols) : Prop :=
  length (long c) = m ∧ length (short c) = m ∧
  length (_af c) = m ∧ length (reversal c) = m.

(** Each value is below the next one. *)
Fixpoint strictly_rising (p : Prices) : bool :=
  match p with
  | x :: (y :: _) as p' => Qltb x y && strictly_rising p'
  | _ => true
  end.

(** Every bar has its low at or below its high. *)
Fixpoint bars_ordered (high low : Prices) : bool :=
  match high, low with
  | h :: hs, l :: ls => negb (Qltb h l) && bars_ordered hs ls
  | _, _ => true
  end.

(** What holds after [k] rising steps without reversal: the stop is at or
    below low[k-1] and, from the first step on, the extreme point is at or
    above high[k+1]. *)
Definition rising_inv (high low : Prices) (k : nat) (s : State) : Prop :=
  falling s = false ∧ 0 < af s ∧
  (∃ l, low !! (k - 1)%nat = Some l ∧ sar s <= l) ∧
  ((1 ≤ k)%nat → ∃ h, high !! (k + 1)%nat = Some h ∧ h <= ep s).

End Psar.

(** ** brar *)

Module Brar.
Import Utils.

(** The sum of a window; NaN when a value of the window is NaN. *)
Definition window_sum (w : Column) : option Q :=
  foldr (fun x acc =>
           match x, acc with
           | Some v, Some a => Some (v + a)
           | _, _ => None
           end) (Some 0) w.

(** [s.rolling(n).sum()]: NaN until [n] values are there. *)
Definition rolling_sum (n : nat) (c : Column) : Column :=
  imap (fun i _ =>
          if (n <=? S i)%nat then window_sum (take n (drop (S i - n) c))
          else None) c.

(** [k * s] *)
Definition col_scale (k : Q) (c : Column) : Column :=
  map (option_map (Qmult k)) c.

(** [s[s < 0] = 0] *)
Definition zero_negative (c : Column) : Column :=
  map (option_map (fun v => if Qltb v 0 then 0 else v)) c.

(** A quotient; a zero divisor gives an infinity or NaN in pandas, which the
    rational model has not: it is recorded as missing. *)
Definition nan_div (x y : option Q) : option Q :=
  match x, y with
  | Some a, Some b => if Qeq_bool b 0 then None else Some (a / b)
  | _, _ => None
  end.

(** [a / b] on two columns, aligned on the longer index. *)
Definition col_div (a b : Column) : Column :=
  let n := Nat.max (length a) (length b) in
  zip_with nan_div (a ++ replicate (n - length a) None)
                   (b ++ replicate (n - length b) None).

(** The returned frame: the columns AR and BR and the number of its label
    [BRAR_{length}]. *)
Record Frame := { AR : Column; BR : Column; props : nat }.

Section WithRange.
(** [non_zero_range] of pandas_ta.utils is not among the sources and the
    specification does not describe it: it is a parameter. *)
Variable non_zero_range : Column → Column → Column.

(** Lines 37-40 and 51-62: the validated period and the two ratios before
    the offset. *)
Definition v_length (length : option Z) : nat :=
  match length with
  | Some n => if (0 <? n)%Z then Z.to_nat n else 26%nat
  | None => 26%nat
  end.

Definition v_scalar (scalar : option Q) : Q :=
  match scalar with
  | Some k => if Qeq_bool k 0 then 100 else k
  | None => 100
  end.

Definition brar_calc (open_ high low close : Prices)
    (length : nat) (scalar : Q) (drift : Z) : Column * Column :=
  let high_open_range := non_zero_range (to_col high) (to_col open_) in
  let open_low_range := non_zero_range (to_col open_) (to_col low) in
  let hcy := non_zero_range (to_col high) (shift drift (to_col close)) in
  let cyl := non_zero_range (shift drift (to_col close)) (to_col low) in
  let hcy := zero_negative hcy in
  let cyl := zero_negative cyl in
  let ar := col_scale scalar (rolling_sum length high_open_range) in
  let ar := col_div ar (rolling_sum length open_low_range) in
  let br := col_scale scalar (rolling_sum length hcy) in
  let br := col_div br (rolling_sum length cyl) in
  (ar, br).

(** [brar(open_, high, low, close, length, scalar, drift, offset, **kwargs)];
    [None] is the bare [return]. *)
Definition brar (open_ high low close : Prices)
    (length : option Z) (scalar : option Q) (drift offset : option Z)
    (kw : kwargs) : option Frame :=
  let length := v_length length in
  let scalar := v_scalar scalar in
  match verify_series open_ length, verify_series high length,
        verify_series low length, verify_series close length with
  | Some open_, Some high, Some low, Some close =>
      let drift := get_drift drift in
      let offset := get_offset offset in
      let '(ar, br) := brar_calc open_ high low close length scalar drift in
      let '(ar, br) :=
        if (offset =? 0)%Z then (ar, br)
        else
          let ar := shift offset ar in
          let br := shift offset ar in
          (ar, br) in
      Some {| AR := fill kw ar; BR := fill kw br; props := length |}
  | _, _, _, _ => None
  end.
End WithRange.

(** The plain difference of two columns of one index, an instance of the
    range parameter for concrete runs. *)
Definition plain_range (a b : Column) : Column := col_sub a b.

End Brar.

(** ** Notions for the further properties *)

(** No row of the column is NaN. *)
Definition all_defined (c : Column) : Prop := Forall is_Some c.

(** A row holds no value. *)
Definition no_value (c : Column) (i : nat) : Prop :=
  ∀ v, c !! i ≠ Some (Some v).

(** The four columns of a psar frame, in the order of the frame. *)
Definition columns (df : Psar.DataFrame) : list Column :=
  [Psar.PSARl df; Psar.PSARs df; Psar.PSARaf df; Psar.PSARr df].

(** Offset and fill applied to a whole frame. *)
Definition offset_fill (k : Z) (kw : kwargs) (df : Psar.DataFrame)
  : Psar.DataFrame :=
  {| Psar.PSARl := fill kw (shift k (Psar.PSARl df));
     Psar.PSARs := fill kw (shift k (Psar.PSARs df));
     Psar.PSARaf := fill kw (shift k (Psar.PSARaf df));
     Psar.PSARr := fill kw (shift k (Psar.PSARr df));
     Psar.params := Psar.params df |}.

(** ** ema *)

Module Ema.
Import Utils.

(** [s.mean()] of a series without NaN. *)
Definition mean (p : Prices) : Q :=
  foldr Qplus 0 p / inject_Z (Z.of_nat (length p)).

(** One row of pandas' exponentially weighted mean ([ignore_na=False],
    no minimum number of periods): the running mean, NaN until the first
    observation, and the weight of the past. *)
Definition ewm_step (alpha : Q) (adjust : bool)
    (st : option Q * Q) (cur : option Q) : option Q * Q :=
  let '(weighted, old_wt) := st in
  match weighted with
  | Some w =>
      let old_wt := old_wt * (1 - alpha) in
      match cur with
      | Some x =>
          let new_wt := if adjust then 1 else alpha in
          let w' := if Qeq_bool w x then w
                    else (old_wt * w + new_wt * x) / (old_wt + new_wt) in
          (Some w', if adjust then old_wt + new_wt else 1)
      | None => (Some w, old_wt)
      end
  | None => (cur, old_wt)
  end.

Fixpoint ewm_from (alpha : Q) (adjust : bool) (st : option Q * Q)
    (c : Column) : Column :=
  match c with
  | [] => []
  | cur :: c' =>
      let st' := ewm_step alpha adjust st cur in
      fst st' :: ewm_from alpha adjust st' c'
  end.

(** The smoothing factor of a span: [2 / (span + 1)]. *)
Definition span_alpha (span : nat) : Q := 2 / (inject_Z (Z.of_nat span) + 1).

(** [s.ewm(span=span, adjust=adjust).mean()] *)
Definition ewm_mean (span : nat) (adjust : bool) (c : Column) : Column :=
  let alpha := span_alpha span in
  match c with
  | [] => []
  | x :: c' => x :: ewm_from alpha adjust (x, 1) c'
  end.

(** Lines 76-79: the first [length - 1] rows made NaN and row [length - 1]
    the mean of the first [length] values. *)
Definition presma_seed (length : nat) (close : Prices) : Column :=
  let sma_nth := mean (take length close) in
  let c := replicate (Nat.min (length - 1) (List.length close)) None
           ++ drop (length - 1) (to_col close) in
  <[(length - 1)%nat := Some sma_nth]> c.

Section WithTalib.
(** [Imports["talib"]] of pandas_ta.maps, whether TA Lib is installed, and
    [talib.EMA], a function of that library: both are parameters. *)
Variable talib_installed : bool.
Variable talib_EMA : Prices → nat → Column.

(** [ema(close, length, talib, presma, offset, adjust=..., **kwargs)];
    [None] is the bare [return]. *)
Definition ema_length (length : option Z) : nat :=
  match length with
  | Some n => if (0 <? n)%Z then Z.to_nat n else 10%nat
  | None => 10%nat
  end.

Definition ema (close : Prices) (length : option Z)
    (talib presma : option bool) (offset : option Z) (adjust : bool)
    (kw : kwargs) : option Column :=
  let length := ema_length length in
  let presma := match presma with Some b => b | None => true end in
  let mode_tal := match talib with Some b => b | None => true end in
  match verify_series close length with
  | Some close =>
      let offset := get_offset offset in
      let ema :=
        if talib_installed && mode_tal then talib_EMA close length
        else
          let close := if presma then presma_seed length close
                       else to_col close in
          ewm_mean length adjust close in
      let ema := if (offset =? 0)%Z then ema else shift offset ema in
      Some (fill kw ema)
  | None => None
  end.
End WithTalib.


End Ema.

(** ** eri *)

Module Eri.
Import Utils.

(** A column extended with NaN to [n] rows (alignment on the longer index). *)
Definition pad_to (n : nat) (c : Column) : Column :=
  c ++ replicate (n - length c) None.

(** [a - b] on two series, aligned on the union of their indexes. *)
Definition sub_aligned (a b : Column) : Column :=
  let n := Nat.max (length a) (length b) in
  zip_with nan_sub (pad_to n a) (pad_to n b).

(** What a call gives: the frame of the two columns with the number of its
    label [ERI_{length}], nothing (the bare [return]), or the TypeError of
    subtracting None from a series. *)
Inductive outcome :=
| Frame (bull bear : Column) (length : nat)
| NoResult
| TypeError.

Section WithTalib.
Variable talib_installed : bool.
Variable talib_EMA : Prices → nat → Column.

(** [eri(high, low, close, length, offset, **kwargs)] *)
Definition eri (high low close : Prices) (length offset : option Z)
    (kw : kwargs) : outcome :=
  let length := match length with
                | Some n => if (0 <? n)%Z then Z.to_nat n else 13%nat
                | None => 13%nat
                end in
  match verify_series high length, verify_series low length,
        verify_series close length with
  | Some high, Some low, Some close =>
      let offset := get_offset offset in
      match Ema.ema talib_installed talib_EMA close
              (Some (Z.of_nat length)) None None None false no_kwargs with
      | Some ema_ =>
          let bull := sub_aligned (to_col high) ema_ in
          let bear := sub_aligned (to_col low) ema_ in
          let '(bull, bear) :=
            if (offset =? 0)%Z then (bull, bear)
            else (shift offset bull, shift offset bear) in
          let bull := fill kw bull in
          let bear := fill kw bear in
          let n := Nat.max (List.length bull) (List.length bear) in
          Frame (pad_to n bull) (pad_to n bear) length
      | None => TypeError
      end
  | _, _, _ => NoResult
  end.
End WithTalib.

End Eri.

(** * Properties *)

Import Utils Psar.

(** ** The error monad and the comparisons *)

Lemma bind_Ok {A B} (m : result A) (k : A → result B) b :
  m ≫= k = Ok b ↔ ∃ a, m = Ok a ∧ k a = Ok b.
Proof.
  destruct m as [a|e]; simpl; split.
  - intros H; exists a; auto.
  - intros (a' & Ha & Hk); congruence.
  - discriminate.
  - intros (a' & Ha & _); discriminate.
Qed.

Lemma foldM_app {A B} (f : B → A → result A) l1 l2 a :
  foldM f (l1 ++ l2) a = foldM f l1 a ≫= foldM f l2.
Proof.
  revert a; induction l1 as [|x l1 IH]; intros a; simpl; [done|].
  destruct (f x a) as [a'|e]; simpl; [apply IH|done].
Qed.

Lemma Qltb_lt x y : Qltb x y = true ↔ x < y.
Proof. unfold Qltb. rewrite Qlt_alt. destruct (x ?= y); split; congruence. Qed.

Lemma Qltb_ge x y : Qltb x y = false ↔ y <= x.
Proof.
  unfold Qltb. rewrite Qle_alt, <- (Qcompare_antisym x y).
  destruct (x ?= y); simpl; split; congruence.
Qed.

Lemma iat_Ok {A} (s : list A) i x : iat s i = Ok x ↔ s !! i = Some x.
Proof. unfold iat. destruct (s !! i); split; congruence. Qed.

Lemma iat_lt {A} (s : list A) i : (i < length s)%nat → ∃ x, iat s i = Ok x.
Proof.
  intros H. destruct (lookup_lt_is_Some_2 s i H) as [x Hx].
  exists x. by apply iat_Ok.
Qed.

Lemma bind_ret {A} (m : result A) : m ≫= Ok = m.
Proof. by destruct m. Qed.

Lemma bind_assoc {A B C} (m : result A) (f : A → result B) (g : B → result C) :
  (m ≫= f) ≫= g = m ≫= (fun a => f a ≫= g).
Proof. by destruct m. Qed.

Lemma foldM_snoc {A B} (f : B → A → result A) l x a :
  foldM f (l ++ [x]) a = foldM f l a ≫= f x.
Proof.
  rewrite foldM_app. destruct (foldM f l a) as [a'|e]; simpl; [|done].
  apply bind_ret.
Qed.

(** Case analysis of one [advance]. *)
Ltac advance_cases H :=
  unfold Psar.advance in H;
  repeat match type of H with
  | context [iat ?l ?i] =>
      let x := fresh "x" in let E := fresh "E" in
      destruct (iat l i) as [x|] eqn:E; simpl in H; [|discriminate H]
  | context [if ?b then _ else _] =>
      let E := fresh "E" in destruct b eqn:E; simpl in H
  end;
  try discriminate H; injection H as <-; simpl.

Section LoopFacts.
Variables (high low : Prices) (paf af0 max_af : Q) (tv : bool).

Local Abbreviation advance := (advance high low paf af0 max_af tv).
Local Abbreviation step := (step high low paf af0 max_af tv).
Local Abbreviation loop := (loop high low paf af0 max_af tv).
Local Abbreviation run := (run high low paf af0 max_af tv).
Local Abbreviation state_after := (state_after high low paf af0 max_af tv).

Lemma advance_ok row s :
  (2 ≤ row)%nat → (row < length high)%nat → (row < length low)%nat →
  ∃ s' r, advance row s = Ok (s', r).
Proof.
  intros H2 Hh Hl. unfold advance.
  destruct (iat_lt high row Hh) as [h ->].
  destruct (iat_lt low row Hl) as [l ->].
  destruct (iat_lt high (row - 1)) as [h1 ->]; [lia|].
  destruct (iat_lt high (row - 2)) as [h2 ->]; [lia|].
  destruct (iat_lt low (row - 1)) as [l1 ->]; [lia|].
  destruct (iat_lt low (row - 2)) as [l2 ->]; [lia|].
  simpl.
  destruct (falling s); simpl;
    repeat match goal with
    | |- context [if ?b then _ else _] => destruct b; simpl
    end; eauto.
Qed.

Lemma run_S close k : run close (S k) = run close k ≫= step (2 + k).
Proof.
  unfold run, Psar.loop. rewrite seq_S.
  destruct (init_state high low af0 close) as [s0|e]; simpl; [|done].
  apply foldM_snoc.
Qed.

Lemma run_prefix close k sc j :
  run close k = Ok sc → (j ≤ k)%nat → ∃ sc', run close j = Ok sc'.
Proof.
  revert sc; induction k as [|k IH]; intros sc Hr Hj.
  - assert (j = 0)%nat as -> by lia. eauto.
  - destruct (decide (j = S k)) as [->|Hne]; [eauto|].
    rewrite run_S in Hr. apply bind_Ok in Hr as (sc' & Hr & _).
    apply (IH sc'); [done|lia].
Qed.

Lemma init_cols_len m : cols_len m (init_cols af0 m).
Proof.
  unfold cols_len, init_cols; simpl.
  by rewrite !length_insert, !length_replicate.
Qed.

Lemma record_len m row s r c : cols_len m c → cols_len m (record row s r c).
Proof.
  intros (Hl & Hs & Ha & Hr). unfold cols_len, record; simpl.
  destruct (falling s); repeat split; by rewrite ?length_insert.
Qed.

Lemma record_other row s r c i :
  i ≠ row → row_same i (record row s r c) c.
Proof.
  intros Hne. unfold row_same, record; simpl.
  destruct (falling s); rewrite ?list_lookup_insert_ne by done; auto.
Qed.

Lemma init_cols_row m i :
  (i < m)%nat →
  long (init_cols af0 m) !! i = Some None ∧
  short (init_cols af0 m) !! i = Some None.
Proof.
  intros Hi. unfold init_cols; simpl.
  split; by apply lookup_replicate_2.
Qed.

Lemma record_row m row s r c :
  cols_len m c → (row < m)%nat →
  long c !! row = Some None → short c !! row = Some None →
  row_ok row s r (record row s r c).
Proof.
  intros (Hl & Hs & Ha & Hr) Hrow HL HS. unfold row_ok, record; simpl.
  destruct (falling s);
    rewrite ?list_lookup_insert_eq by lia; auto.
Qed.

Lemma row_same_trans i c1 c2 c3 :
  row_same i c1 c2 → row_same i c2 c3 → row_same i c1 c3.
Proof.
  unfold row_same. intros (?&?&?&?) (?&?&?&?).
  repeat split; congruence.
Qed.

Lemma row_ok_same i s r c c' : row_same i c' c → row_ok i s r c → row_ok i s r c'.
Proof.
  unfold row_same, row_ok. intros (?&?&?&?) (?&?&?&?).
  repeat split; congruence.
Qed.

(** The loop keeps the length of the columns and leaves the rows it has
    not reached as they were seeded. *)
Lemma run_frame close k s c :
  run close k = Ok (s, c) →
  cols_len (length high) c ∧
  ∀ i, (i < 2 ∨ 2 + k ≤ i)%nat → row_same i c (init_cols af0 (length high)).
Proof.
  revert s c; induction k as [|k IH]; intros s c Hr.
  - unfold run in Hr. apply bind_Ok in Hr as (s0 & _ & Hr).
    simpl in Hr. injection Hr as <- <-.
    split; [apply init_cols_len|]. intros i _. by repeat split.
  - rewrite run_S in Hr. apply bind_Ok in Hr as ([s0 c0] & Hr & Hs).
    destruct (IH _ _ Hr) as [Hlen Hsame].
    unfold Psar.step in Hs. apply bind_Ok in Hs as ([s1 r] & Ha & Hs).
    simpl in Hs. injection Hs as <- <-.
    split; [by apply record_len|].
    intros i Hi. eapply row_same_trans; [apply record_other; lia|].
    apply Hsame; lia.
Qed.

(** Every row the loop has passed holds the scalars of its step. *)
Lemma run_row close k s c :
  run close k = Ok (s, c) → (2 + k ≤ length high)%nat →
  ∀ j, (j < k)%nat →
    ∃ s0 c0 s1 r,
      run close j = Ok (s0, c0) ∧ advance (2 + j) s0 = Ok (s1, r) ∧
      run close (S j) = Ok (s1, record (2 + j) s1 r c0) ∧
      row_ok (2 + j) s1 r c.
Proof.
  revert s c; induction k as [|k IH]; intros s c Hr Hk j Hj; [lia|].
  pose proof Hr as Hr'.
  rewrite run_S in Hr. apply bind_Ok in Hr as ([s0 c0] & Hr & Hs).
  pose proof Hs as Hs'.
  unfold Psar.step in Hs. apply bind_Ok in Hs as ([s1 r] & Ha & Hs).
  simpl in Hs, Ha. injection Hs as <- <-.
  destruct (decide (j = k)) as [->|Hne].
  - exists s0, c0, s1, r. split_and!; try done.
    destruct (run_frame _ _ _ _ Hr) as [Hlen Hsame].
    destruct (Hsame (2 + k)%nat) as (HL & HS & _); [lia|].
    destruct (init_cols_row (length high) (2 + k)) as [HL0 HS0]; [lia|].
    change (2 + k)%nat with (S (S k)) in *.
    apply (record_row (length high)); [done|lia|by rewrite HL|by rewrite HS].
  - assert (2 + k ≤ length high)%nat as Hk' by lia.
    assert (j < k)%nat as Hj' by lia.
    destruct (IH _ _ Hr Hk' j Hj') as (t0 & d0 & t1 & q & H1 & H2 & H3 & H4).
    exists t0, d0, t1, q. split_and!; try done.
    eapply row_ok_same; [apply record_other; lia|done].
Qed.

Lemma advance_reverse row s s' :
  advance row s = Ok (s', true) →
  af s' = af0 ∧ falling s' = negb (falling s) ∧
  ∃ h l, high !! row = Some h ∧ low !! row = Some l ∧
         ep s' = if falling s' then l else h.
Proof.
  intros H. advance_cases H.
  all: split_and!; try done; eexists _, _; split_and!; try (by apply iat_Ok); done.
Qed.

Lemma advance_keep row s s' :
  advance row s = Ok (s', false) → falling s' = falling s.
Proof. intros H. by advance_cases H. Qed.

Lemma advance_af row s s' r :
  advance row s = Ok (s', r) →
  af s' = af s ∨ af s' = Qmin (af s + paf) max_af ∨ af s' = af0.
Proof. intros H. advance_cases H; auto. Qed.
End LoopFacts.

(** ** The seed *)

Lemma zero_pos x : Qltb 0 (zero x) = Qltb 0 x.
Proof.
  unfold zero. destruct (Qeq_bool x 0) eqn:E; [|done].
  apply Qeq_bool_eq in E.
  assert (Qltb 0 x = false) as -> by (apply Qltb_ge; rewrite E; apply Qle_refl).
  done.
Qed.

Lemma falling_two h0 h1 l0 l1 :
  _falling [h0; h1] [l0; l1] 1 =
  Ok (Qltb (h1 - h0) (l0 - l1) && Qltb 0 (l0 - l1)).
Proof.
  unfold _falling, shift. change (Z.to_nat 1) with 1%nat.
  cbn -[Qminus Qmult Qltb zero Qplus].
  f_equal. rewrite zero_pos.
  destruct (Qltb (h1 - h0) (l0 - l1) && Qltb 0 (l0 - l1)) eqn:E.
  - apply andb_prop in E as [_ E]. apply Qltb_lt. apply Qltb_lt in E.
    by rewrite Qmult_1_l.
  - apply Qltb_ge. rewrite Qmult_0_l. apply Qle_refl.
Qed.

Lemma init_state_two h0 h1 hs l0 l1 ls af0 close :
  init_state (h0 :: h1 :: hs) (l0 :: l1 :: ls) af0 close =
  let f := Qltb (h1 - h0) (l0 - l1) && Qltb 0 (l0 - l1) in
  sar0 ← match close with
         | Some c => iat c 0
         | None => Ok (if f then h0 else l0)
         end;
  Ok {| sar := sar0; ep := if f then l0 else h0; af := af0; falling := f |}.
Proof.
  unfold init_state. change (take 2 (h0 :: h1 :: hs)) with [h0; h1].
  change (take 2 (l0 :: l1 :: ls)) with [l0; l1].
  rewrite falling_two. simpl.
  destruct (Qltb (h1 - h0) (l0 - l1) && Qltb 0 (l0 - l1)), close; done.
Qed.

Lemma falling_one h l : _falling [h] [l] 1 = Ok false.
Proof. reflexivity. Qed.

(** The seed exists for aligned, non-empty inputs. *)
Lemma init_state_ok high low af0 close :
  high ≠ [] → length high = length low → close ≠ Some [] →
  ∃ s0, init_state high low af0 close = Ok s0.
Proof.
  intros Hne Hlen Hc.
  assert (∀ s, ∃ s0 : Q, match close with
                         | Some c => iat c 0
                         | None => Ok s
                         end = Ok s0) as Hclose.
  { intros s. destruct close as [[|c0 c]|]; [done|by exists c0|by exists s]. }
  destruct high as [|h0 [|h1 hs]]; [done| |].
  - destruct low as [|l0 [|l1 ls]]; try done.
    unfold init_state. change (take 2 [h0]) with [h0].
    change (take 2 [l0]) with [l0]. rewrite falling_one. simpl.
    destruct (Hclose l0) as [s0 Hs0]. rewrite Hs0. simpl. eauto.
  - destruct low as [|l0 [|l1 ls]]; try done.
    rewrite init_state_two. simpl.
    set (f := Qltb (h1 - h0) (l0 - l1) && Qltb 0 (l0 - l1)).
    destruct (Hclose (if f then h0 else l0)) as [s0 Hs0].
    rewrite Hs0. simpl. eauto.
Qed.

(** The loop is total on aligned, non-empty inputs. *)
Lemma run_ok high low paf af0 max_af tv close k :
  high ≠ [] → length high = length low → close ≠ Some [] →
  (2 + k ≤ length high)%nat ∨ k = 0%nat →
  ∃ sc, run high low paf af0 max_af tv close k = Ok sc.
Proof.
  intros Hne Hlen Hc. induction k as [|k IH]; intros Hk.
  - destruct (init_state_ok high low af0 close Hne Hlen Hc) as [s0 Hs0].
    exists (s0, init_cols af0 (length high)). unfold run. by rewrite Hs0.
  - destruct IH as [[s c] Hr]; [lia|].
    destruct (advance_ok high low paf af0 max_af tv (2 + k) s) as (s' & r & Ha);
      [lia|lia|lia|].
    exists (s', record (2 + k) s' r c).
    rewrite run_S, Hr. simpl. unfold step. simpl in *. by rewrite Ha.
Qed.

Lemma valid_input_aligned high low close :
  valid_input high low close →
  high ≠ [] ∧ length high = length low ∧ close ≠ Some [].
Proof.
  intros (Hlen & Hm & Hc). split_and!; [|done|].
  - intros ->. simpl in Hm. lia.
  - intros ->. simpl in Hc. lia.
Qed.

(** On non-empty inputs psar is the loop followed by offset and fill. *)
Lemma psar_unfold high low close af0 af max_af tv offset kw :
  high ≠ [] → low ≠ [] →
  psar high low close af0 af max_af tv offset kw =
  let paf := v_pos_default af 0.02 in
  let a0 := v_pos_default af0 paf in
  let mx := v_pos_default max_af 0.2 in
  let post (col : Column) : Column :=
    fill kw (if (v_offset offset =? 0)%Z then col
             else shift (v_offset offset) col) in
  sc ← run high low paf a0 mx tv close (length high - 2);
  Ok (Some {| PSARl := post (long sc.2); PSARs := post (short sc.2);
              PSARaf := post (_af sc.2); PSARr := post (reversal sc.2);
              params := (a0, mx) |}).
Proof. intros Hh Hl. by destruct high, low. Qed.

(** Without offset and fill the frame holds the columns of the loop. *)
Lemma psar_plain high low close af0 af max_af tv offset :
  high ≠ [] → low ≠ [] → v_offset offset = 0%Z →
  psar high low close af0 af max_af tv offset no_kwargs =
  let paf := v_pos_default af 0.02 in
  let a0 := v_pos_default af0 paf in
  let mx := v_pos_default max_af 0.2 in
  sc ← run high low paf a0 mx tv close (length high - 2);
  Ok (Some {| PSARl := long sc.2; PSARs := short sc.2;
              PSARaf := _af sc.2; PSARr := reversal sc.2;
              params := (a0, mx) |}).
Proof. intros Hh Hl Ho. rewrite psar_unfold by done. by rewrite Ho. Qed.

Lemma psar_valid high low close af0 af max_af tv offset :
  valid_input high low close → v_offset offset = 0%Z →
  let paf := v_pos_default af 0.02 in
  let a0 := v_pos_default af0 paf in
  let mx := v_pos_default max_af 0.2 in
  ∃ s c,
    run high low paf a0 mx tv close (length high - 2) = Ok (s, c) ∧
    psar high low close af0 af max_af tv offset no_kwargs =
    Ok (Some {| PSARl := long c; PSARs := short c; PSARaf := _af c;
                PSARr := reversal c; params := (a0, mx) |}).
Proof.
  intros Hv Ho paf a0 mx.
  destruct (valid_input_aligned _ _ _ Hv) as (Hne & Hlen & Hc).
  destruct Hv as (_ & Hm & _).
  destruct (run_ok high low paf a0 mx tv close (length high - 2) Hne Hlen Hc)
    as [[s c] Hr]; [lia|].
  exists s, c. split; [done|].
  assert (low ≠ []) as Hne' by (intros ->; simpl in Hlen; lia).
  rewrite psar_plain by done. simpl.
  fold paf. fold a0. fold mx. by rewrite Hr.
Qed.

Lemma state_after_S high low paf af0 max_af tv close j s c :
  run high low paf af0 max_af tv close j = Ok (s, c) →
  state_after high low paf af0 max_af tv close (S j) = Ok s.
Proof.
  intros Hr. unfold state_after.
  replace (S j - 1)%nat with j by lia. by rewrite Hr.
Qed.

(** ** The claims on the recurrence *)

(** C1. For a valid input, psar returns a frame in which, at every computed
    step [2 <= i < n], exactly one of long[i] and short[i] is defined: it is
    short[i] when the direction flag after step [i] is falling and long[i]
    otherwise, the other one is missing, and the defined one is the sar
    committed at that step. *)
Theorem psar_one_stop_per_step high low close af0 af max_af tv offset :
  valid_input high low close → v_offset offset = 0%Z →
  let paf := v_pos_default af 0.02 in
  let a0 := v_pos_default af0 paf in
  let mx := v_pos_default max_af 0.2 in
  ∃ df,
    psar high low close af0 af max_af tv offset no_kwargs = Ok (Some df) ∧
    ∀ i, (2 ≤ i < length high)%nat →
      ∃ s, state_after high low paf a0 mx tv close i = Ok s ∧
           PSARl df !! i = Some (if falling s then None else Some (sar s)) ∧
           PSARs df !! i = Some (if falling s then Some (sar s) else None).
Proof.
  intros Hv Ho paf a0 mx.
  destruct (psar_valid high low close af0 af max_af tv offset Hv Ho)
    as (s & c & Hr & Hp).
  fold paf a0 mx in Hr, Hp.
  eexists. split; [exact Hp|]. simpl. intros i Hi.
  destruct (run_row _ _ _ _ _ _ _ _ _ _ Hr ltac:(lia) (i - 2)%nat ltac:(lia))
    as (s0 & c0 & s1 & r & H0 & Ha & H1 & Hrow & Hrow' & _).
  replace (2 + (i - 2))%nat with i in * by lia.
  exists s1. split; [|done].
  replace i with (S (S (i - 2))) at 1 by lia.
  by eapply state_after_S.
Qed.

(** The theorem at a three-bar input. *)
Lemma psar_one_stop_per_step_witness :
  ∃ df,
    psar [10; 11; 12] [9; 10; 11] None None None None false None no_kwargs
      = Ok (Some df) ∧
    ∀ i, (2 ≤ i < 3)%nat →
      ∃ s, state_after [10; 11; 12] [9; 10; 11] 0.02 0.02 0.2 false None i
             = Ok s ∧
           PSARl df !! i = Some (if falling s then None else Some (sar s)) ∧
           PSARs df !! i = Some (if falling s then Some (sar s) else None).
Proof.
  apply (psar_one_stop_per_step [10; 11; 12] [9; 10; 11] None None None None
           false None).
  - unfold valid_input. simpl. repeat split; lia.
  - reflexivity.
Defined.

Lemma init_cols_seed af0 m i :
  (i < 2)%nat → (2 ≤ m)%nat →
  long (init_cols af0 m) !! i = Some None ∧
  short (init_cols af0 m) !! i = Some None ∧
  _af (init_cols af0 m) !! i = Some (Some af0) ∧
  reversal (init_cols af0 m) !! i = Some (Some 0).
Proof.
  intros Hi Hm. unfold init_cols; simpl.
  split_and!; try (apply lookup_replicate_2; lia).
  destruct (decide (i = 1%nat)) as [->|Hne].
  - apply list_lookup_insert_eq. rewrite length_insert, length_replicate. lia.
  - rewrite list_lookup_insert_ne by done.
    assert (i = 0%nat) as -> by lia.
    apply list_lookup_insert_eq. rewrite length_replicate. lia.
Qed.

(** C3. For a valid input, reversal[i] is 0 or 1 at every position; where
    reversal[i] is 1 the recorded af[i] is af0, the direction flag after
    step [i] is the negation of the flag after step [i-1], and the extreme
    point is low[i] when the new direction is falling and high[i] otherwise. *)
Theorem psar_reversal_resets high low close af0 af max_af tv offset :
  valid_input high low close → v_offset offset = 0%Z →
  let paf := v_pos_default af 0.02 in
  let a0 := v_pos_default af0 paf in
  let mx := v_pos_default max_af 0.2 in
  ∃ df,
    psar high low close af0 af max_af tv offset no_kwargs = Ok (Some df) ∧
    (∀ i, (i < length high)%nat →
       PSARr df !! i = Some (Some 0) ∨ PSARr df !! i = Some (Some 1)) ∧
    ∀ i, PSARr df !! i = Some (Some 1) →
      ∃ s0 s1 h l,
        state_after high low paf a0 mx tv close (i - 1) = Ok s0 ∧
        state_after high low paf a0 mx tv close i = Ok s1 ∧
        PSARaf df !! i = Some (Some a0) ∧
        falling s1 = negb (falling s0) ∧
        high !! i = Some h ∧ low !! i = Some l ∧
        ep s1 = if falling s1 then l else h.
Proof.
  intros Hv Ho paf a0 mx.
  destruct (psar_valid high low close af0 af max_af tv offset Hv Ho)
    as (s & c & Hr & Hp).
  fold paf a0 mx in Hr, Hp.
  destruct Hv as (Hlen & Hm & _).
  destruct (run_frame _ _ _ _ _ _ _ _ _ _ Hr) as [(_ & _ & _ & HlenR) Hseed].
  assert (∀ i, (i < 2)%nat → reversal c !! i = Some (Some 0)) as Hlow.
  { intros i Hi. destruct (Hseed i) as (_ & _ & _ & ->); [lia|].
    by apply init_cols_seed. }
  eexists. split; [exact Hp|]. simpl. split.
  - intros i Hi. destruct (decide (i < 2)%nat) as [Hi2|Hi2]; [left; auto|].
    destruct (run_row _ _ _ _ _ _ _ _ _ _ Hr ltac:(lia) (i - 2)%nat ltac:(lia))
      as (s0 & c0 & s1 & r & _ & _ & _ & _ & _ & _ & Hrev).
    replace (2 + (i - 2))%nat with i in * by lia.
    rewrite Hrev. destruct r; auto.
  - intros i Hi.
    assert (i < length high)%nat as Hlt.
    { rewrite <- HlenR. by eapply lookup_lt_Some. }
    assert (2 ≤ i)%nat as Hge.
    { destruct (decide (i < 2)%nat) as [Hi2|]; [|lia].
      rewrite (Hlow i Hi2) in Hi. discriminate. }
    destruct (run_row _ _ _ _ _ _ _ _ _ _ Hr ltac:(lia) (i - 2)%nat ltac:(lia))
      as (s0 & c0 & s1 & r & H0 & Ha & H1 & _ & _ & Haf & Hrev).
    replace (2 + (i - 2))%nat with i in * by lia.
    rewrite Hrev in Hi. destruct r; [|discriminate].
    destruct (advance_reverse _ _ _ _ _ _ _ _ _ Ha) as (Eaf & Efl & h & l & Hh & Hl & Eep).
    exists s0, s1, h, l. split_and!; try done.
    + replace (i - 1)%nat with (S (i - 2)) by lia. by eapply state_after_S.
    + replace i with (S (S (i - 2))) at 1 by lia. by eapply state_after_S.
    + by rewrite Haf, Eaf.
Qed.

(** The theorem at a three-bar input whose third bar reverses the trend. *)
Lemma psar_reversal_resets_witness :
  ∃ df,
    psar [11; 11.01; 11.02] [10; 10.01; 10.015] None None None None false None
      no_kwargs = Ok (Some df) ∧
    (∀ i, (i < 3)%nat →
       PSARr df !! i = Some (Some 0) ∨ PSARr df !! i = Some (Some 1)) ∧
    ∀ i, PSARr df !! i = Some (Some 1) →
      ∃ s0 s1 h l,
        state_after [11; 11.01; 11.02] [10; 10.01; 10.015] 0.02 0.02 0.2 false
          None (i - 1) = Ok s0 ∧
        state_after [11; 11.01; 11.02] [10; 10.01; 10.015] 0.02 0.02 0.2 false
          None i = Ok s1 ∧
        PSARaf df !! i = Some (Some 0.02) ∧
        falling s1 = negb (falling s0) ∧
        [11; 11.01; 11.02] !! i = Some h ∧
        [10; 10.01; 10.015] !! i = Some l ∧
        ep s1 = if falling s1 then l else h.
Proof.
  apply (psar_reversal_resets [11; 11.01; 11.02] [10; 10.01; 10.015] None None
           None None false None).
  - unfold valid_input. simpl. repeat split; lia.
  - reflexivity.
Defined.

(** C10. For a valid input (at least two bars), without offset and fill,
    the seed positions 0 and 1 hold no stop value in long and in short,
    reversal is 0 and af is af0 there. *)
Theorem psar_seed_rows high low close af0 af max_af tv offset :
  valid_input high low close → v_offset offset = 0%Z →
  let a0 := v_pos_default af0 (v_pos_default af 0.02) in
  ∃ df,
    psar high low close af0 af max_af tv offset no_kwargs = Ok (Some df) ∧
    ∀ i, (i < 2)%nat →
      PSARl df !! i = Some None ∧ PSARs df !! i = Some None ∧
      PSARr df !! i = Some (Some 0) ∧ PSARaf df !! i = Some (Some a0).
Proof.
  intros Hv Ho a0.
  destruct (psar_valid high low close af0 af max_af tv offset Hv Ho)
    as (s & c & Hr & Hp).
  fold a0 in Hr, Hp.
  destruct Hv as (Hlen & Hm & _).
  destruct (run_frame _ _ _ _ _ _ _ _ _ _ Hr) as [_ Hseed].
  eexists. split; [exact Hp|]. simpl. intros i Hi.
  destruct (Hseed i) as (-> & -> & -> & ->); [lia|].
  destruct (init_cols_seed a0 (length high) i Hi Hm) as (? & ? & ? & ?).
  done.
Qed.

(** The theorem at a two-bar input. *)
Lemma psar_seed_rows_witness :
  ∃ df,
    psar [10; 11] [9; 8] None None None None false None no_kwargs
      = Ok (Some df) ∧
    ∀ i, (i < 2)%nat →
      PSARl df !! i = Some None ∧ PSARs df !! i = Some None ∧
      PSARr df !! i = Some (Some 0) ∧ PSARaf df !! i = Some (Some 0.02).
Proof.
  apply (psar_seed_rows [10; 11] [9; 8] None None None None false None).
  - unfold valid_input. simpl. repeat split; lia.
  - reflexivity.
Defined.

(** ** The acceleration factor *)

Lemma v_pos_default_Some v d : 0 < v → v_pos_default (Some v) d = v.
Proof. intros H. unfold v_pos_default. apply Qltb_lt in H. by rewrite H. Qed.

Lemma v_pos_default_pos var d : 0 < d → 0 < v_pos_default var d.
Proof.
  intros H. unfold v_pos_default. destruct var as [v|]; [|done].
  destruct (Qltb 0 v) eqn:E; [by apply Qltb_lt|done].
Qed.

Lemma init_state_af high low af0 close s :
  init_state high low af0 close = Ok s → af s = af0.
Proof.
  unfold init_state. intros H.
  apply bind_Ok in H as (f & _ & H). apply bind_Ok in H as (h0 & _ & H).
  apply bind_Ok in H as (l0 & _ & H). destruct f; simpl in H.
  all: apply bind_Ok in H as (s0 & _ & H); by injection H as <-.
Qed.

Lemma run_af_bounds high low paf af0 max_af tv close k s c :
  0 < paf → af0 <= max_af →
  run high low paf af0 max_af tv close k = Ok (s, c) →
  af0 <= af s ∧ af s <= max_af.
Proof.
  intros Hp Hle. revert s c. induction k as [|k IH]; intros s c Hr.
  - unfold run in Hr. apply bind_Ok in Hr as (s0 & Hi & Hr).
    simpl in Hr. injection Hr as <- <-.
    rewrite (init_state_af _ _ _ _ _ Hi). split; [apply Qle_refl|done].
  - rewrite run_S in Hr. apply bind_Ok in Hr as ([s0 c0] & Hr & Hs).
    destruct (IH _ _ Hr) as [Hlo Hhi].
    unfold step in Hs. apply bind_Ok in Hs as ([s1 r] & Ha & Hs).
    simpl in Hs, Ha. injection Hs as <- <-.
    destruct (advance_af _ _ _ _ _ _ _ _ _ _ Ha) as [->|[->| ->]].
    + done.
    + split; [|apply Q.le_min_r].
      apply Q.min_glb; [|done].
      apply Qle_trans with (af s0); [done|].
      rewrite <- (Qplus_0_r (af s0)) at 1.
      apply Qplus_le_r. by apply Qlt_le_weak.
    + split; [apply Qle_refl|done].
Qed.

(** C2. For a valid input and parameters with [0 < af0 <= max_af], the
    recorded acceleration factor lies between af0 and max_af at every
    position of the output. *)
Theorem psar_af_bounds high low close a0 af mx tv offset :
  valid_input high low close → v_offset offset = 0%Z →
  0 < a0 → a0 <= mx →
  ∃ df,
    psar high low close (Some a0) af (Some mx) tv offset no_kwargs
      = Ok (Some df) ∧
    ∀ i, (i < length high)%nat →
      ∃ v, PSARaf df !! i = Some (Some v) ∧ a0 <= v ∧ v <= mx.
Proof.
  intros Hv Ho Ha0 Hle.
  destruct (psar_valid high low close (Some a0) af (Some mx) tv offset Hv Ho)
    as (s & c & Hr & Hp).
  assert (0 < mx) as Hmx by (by apply Qlt_le_trans with a0).
  rewrite !v_pos_default_Some in Hr, Hp by done.
  set (paf := v_pos_default af 0.02) in *.
  assert (0 < paf) as Hpaf by (by apply v_pos_default_pos).
  destruct Hv as (Hlen & Hm & Hc).
  eexists. split; [exact Hp|]. simpl. intros i Hi.
  destruct (decide (i < 2)%nat) as [Hi2|Hi2].
  - destruct (run_frame _ _ _ _ _ _ _ _ _ _ Hr) as [_ Hseed].
    destruct (Hseed i) as (_ & _ & -> & _); [lia|].
    destruct (init_cols_seed a0 (length high) i Hi2 Hm) as (_ & _ & -> & _).
    exists a0. split_and!; [done|apply Qle_refl|done].
  - destruct (run_row _ _ _ _ _ _ _ _ _ _ Hr ltac:(lia) (i - 2)%nat ltac:(lia))
      as (s0 & c0 & s1 & r & _ & _ & H1 & _ & _ & Haf & _).
    replace (2 + (i - 2))%nat with i in * by lia.
    destruct (run_af_bounds _ _ _ _ _ _ _ _ _ _ Hpaf Hle H1) as [Hlo Hhi].
    exists (Psar.af s1). by split_and!.
Qed.

(** The theorem at a four-bar rising input with the default parameters. *)
Lemma psar_af_bounds_witness :
  ∃ df,
    psar [1; 2; 3; 4] [0; 1; 2; 3] None (Some 0.02) None (Some 0.2) false None
      no_kwargs = Ok (Some df) ∧
    ∀ i, (i < 4)%nat →
      ∃ v, PSARaf df !! i = Some (Some v) ∧ 0.02 <= v ∧ v <= 0.2.
Proof.
  apply (psar_af_bounds [1; 2; 3; 4] [0; 1; 2; 3] None 0.02 None 0.2 false None).
  - unfold valid_input. simpl. repeat split; lia.
  - reflexivity.
  - reflexivity.
  - discriminate.
Defined.

(** C4. The seed of the recurrence: with [up = high[1] - high[0]] and
    [dn = low[0] - low[1]] the initial direction is falling exactly when
    [dn > up] and [dn > 0]; sar and ep start at high[0] and low[0] when
    falling and at low[0] and high[0] otherwise.  For high = [10, 11] and
    low = [9, 8] the direction is rising, sar = 9 and ep = 10. *)
Theorem psar_seed h0 h1 hs l0 l1 ls af0 :
  let up := h1 - h0 in
  let dn := l0 - l1 in
  (∃ s, init_state (h0 :: h1 :: hs) (l0 :: l1 :: ls) af0 None = Ok s ∧
        (falling s = true ↔ up < dn ∧ 0 < dn) ∧
        (falling s = true → sar s = h0 ∧ ep s = l0) ∧
        (falling s = false → sar s = l0 ∧ ep s = h0)) ∧
  init_state [10; 11] [9; 8] af0 None
    = Ok {| sar := 9; ep := 10; af := af0; falling := false |}.
Proof.
  intros up dn. split; [|reflexivity].
  rewrite init_state_two. simpl. fold up dn.
  eexists. split; [reflexivity|]. simpl. split_and!.
  - rewrite andb_true_iff, !Qltb_lt. done.
  - by intros ->.
  - by intros ->.
Qed.

(** ** Rising series *)

Lemma strictly_rising_lookup p i x y :
  strictly_rising p = true → p !! i = Some x → p !! S i = Some y → x < y.
Proof.
  revert i. induction p as [|a p IH]; intros i Hr Hx Hy; [done|].
  destruct p as [|b p]; [done|].
  simpl in Hr. apply andb_prop in Hr as [Hab Hr].
  destruct i as [|i]; simpl in Hx, Hy.
  - injection Hx as <-. injection Hy as <-. by apply Qltb_lt.
  - by apply (IH i).
Qed.

Lemma bars_ordered_lookup high low i h l :
  bars_ordered high low = true →
  high !! i = Some h → low !! i = Some l → l <= h.
Proof.
  revert low i. induction high as [|a high IH]; intros low i Hb Hh Hl; [done|].
  destruct low as [|b low]; [done|].
  simpl in Hb. apply andb_prop in Hb as [Hab Hb].
  destruct i as [|i]; simpl in Hh, Hl.
  - injection Hh as <-. injection Hl as <-.
    apply Qltb_ge. by apply negb_true_iff.
  - by apply (IH low i).
Qed.

Section Rising.
Variables (high low : Prices) (paf af0 max_af : Q) (tv : bool).
Hypotheses (Hpaf : 0 < paf) (Haf0 : 0 < af0) (Hmax : 0 < max_af).
Hypotheses (Hhigh : strictly_rising high = true).
Hypotheses (Hlow : strictly_rising low = true).
Hypotheses (Hbars : bars_ordered high low = true).

Local Abbreviation advance := (advance high low paf af0 max_af tv).
Local Abbreviation run := (run high low paf af0 max_af tv).

Lemma advance_rising row s s' :
  falling s = false → advance row s = Ok (s', false) →
  ∃ h l1 l2,
    high !! row = Some h ∧ low !! (row - 1)%nat = Some l1 ∧
    low !! (row - 2)%nat = Some l2 ∧
    falling s' = false ∧
    sar s' = Qmin (Qmin l1 l2) (sar s + af s * (ep s - sar s)) ∧
    h <= ep s' ∧
    (af s' = af s ∨ af s' = Qmin (af s + paf) max_af).
Proof.
  intros Hf H. unfold Psar.advance in H. rewrite Hf in H.
  apply bind_Ok in H as (h & Hh%iat_Ok & H).
  apply bind_Ok in H as (l & Hl%iat_Ok & H).
  apply bind_Ok in H as ([[[r e1] a1] sr] & H1 & H).
  destruct (Qltb (ep s) h) eqn:Eep; simpl in H1.
  all: apply bind_Ok in H1 as (l1 & Hl1%iat_Ok & H1).
  all: apply bind_Ok in H1 as (l2 & Hl2%iat_Ok & H1).
  all: injection H1 as <- <- <- <-.
  all: destruct (Qltb l (sar s + af s * (ep s - sar s))) eqn:Er; simpl in H.
  all: try (apply bind_Ok in H as (? & _ & H); discriminate H).
  all: injection H as <-; simpl.
  all: exists h, l1, l2; split_and!; try done; auto.
  - apply Qle_refl.
  - by apply Qltb_ge.
Qed.

Lemma rising_inv_init s :
  (2 ≤ length high)%nat → length high = length low →
  init_state high low af0 None = Ok s → rising_inv high low 0 s.
Proof.
  intros Hm Hlen Hi.
  destruct high as [|h0 [|h1 hs]]; simpl in Hm; try lia.
  destruct low as [|l0 [|l1 ls]]; simpl in Hlen; try lia.
  rewrite init_state_two in Hi. simpl in Hi.
  assert (l0 < l1) as Hl01 by (by apply (strictly_rising_lookup _ 0 _ _ Hlow)).
  assert (Qltb 0 (l0 - l1) = false) as E by (apply Qltb_ge; lra).
  rewrite E, andb_false_r in Hi. injection Hi as <-.
  unfold rising_inv; simpl. split_and!; try done.
  - exists l0. split; [done|apply Qle_refl].
  - lia.
Qed.

Lemma rising_inv_step k s s' :
  rising_inv high low k s → advance (2 + k) s = Ok (s', false) →
  rising_inv high low (S k) s' ∧ ((1 ≤ k)%nat → sar s < sar s').
Proof.
  intros (Hf & Haf & (lk & Hlk & Hsar) & Hep) Ha.
  destruct (advance_rising _ _ _ Hf Ha)
    as (h & l1 & l2 & Hh & Hl1 & Hl2 & Hf' & Esar & Hep' & Eaf).
  replace (2 + k - 1)%nat with (S k) in Hl1 by lia.
  replace (2 + k - 2)%nat with k in Hl2 by lia.
  assert (0 < af s') as Haf'.
  { destruct Eaf as [->| ->]; [done|]. apply Q.min_glb_lt; lra. }
  split.
  - unfold rising_inv. split_and!; try done.
    + exists l2. replace (S k - 1)%nat with k by lia. split; [done|].
      rewrite Esar. eapply Qle_trans; [apply Q.le_min_l|apply Q.le_min_r].
    + intros _. exists h. replace (S k + 1)%nat with (2 + k)%nat by lia. done.
  - intros Hk. destruct (Hep Hk) as (hk & Hhk & Hhk').
    replace (k + 1)%nat with (S k) in Hhk by lia.
    assert (lk < l2) as Hlt1.
    { apply (strictly_rising_lookup low (k - 1)); [done..|].
      by replace (S (k - 1)) with k by lia. }
    assert (l2 < l1) as Hlt2 by (by apply (strictly_rising_lookup low k)).
    assert (l1 <= hk) as Hb by (by apply (bars_ordered_lookup high low (S k))).
    assert (0 < af s * (ep s - sar s)) by (apply Qmult_lt_0_compat; lra).
    rewrite Esar. repeat apply Q.min_glb_lt; lra.
Qed.
End Rising.

(** While no reversal is recorded on a rising, ordered input, the scalars
    after every step satisfy [rising_inv], and the stop grows from step 2 on. *)
Lemma run_rising high low paf af0 max_af tv n s c :
  0 < paf → 0 < af0 → 0 < max_af →
  strictly_rising high = true → strictly_rising low = true →
  bars_ordered high low = true →
  (2 ≤ length high)%nat → length high = length low →
  run high low paf af0 max_af tv None (length high - 2) = Ok (s, c) →
  (n ≤ length high)%nat →
  (∀ j, (2 ≤ j < n)%nat → reversal c !! j = Some (Some 0)) →
  ∀ k, (2 + k ≤ n)%nat ∨ k = 0%nat →
    ∃ sk ck, run high low paf af0 max_af tv None k = Ok (sk, ck) ∧
             rising_inv high low k sk ∧
             ((2 ≤ k)%nat → ∃ sj cj,
                run high low paf af0 max_af tv None (k - 1) = Ok (sj, cj) ∧
                sar sj < sar sk).
Proof.
  intros Hpaf Haf0 Hmax Hhigh Hlow Hbars Hm Hlen Hr Hn Hrev.
  induction k as [|k IH]; intros Hk.
  - destruct (run_prefix _ _ _ _ _ _ _ _ _ 0%nat Hr) as [[s0 c0] H0]; [lia|].
    exists s0, c0. split_and!; [done| |lia].
    unfold run in H0. apply bind_Ok in H0 as (s0' & Hi & H0).
    simpl in H0. injection H0 as <- <-.
    by eapply (rising_inv_init high low af0).
  - destruct IH as (sk & ck & Hrk & Hinv & _); [lia|].
    assert (k < length high - 2)%nat as Hlt by lia.
    destruct (run_row _ _ _ _ _ _ _ _ _ _ Hr ltac:(lia) k Hlt)
      as (s0 & c0 & s1 & r & H0 & Ha & H1 & _ & _ & _ & Hrow).
    rewrite Hrk in H0. injection H0 as <- <-.
    rewrite Hrev in Hrow by lia.
    destruct r; [discriminate Hrow|].
    destruct (rising_inv_step high low paf af0 max_af tv Hpaf Hmax Hlow Hbars
                k sk s1 Hinv Ha) as [Hinv' Hgrow].
    eexists _, _. split_and!; [exact H1|done|].
    intros Hk2. exists sk, ck. replace (S k - 1)%nat with k by lia.
    split; [done|]. apply Hgrow. lia.
Qed.

(** C5 (amended).  On a strictly rising high and low series with every low
    at or below its high, without close seeding, for as long as no reversal
    is recorded (reversal[j] = 0 for all [2 <= j < n]): long[j] is defined
    and short[j] missing for those [j], and the long values are strictly
    increasing. *)
Theorem psar_rising_prefix high low af0 af max_af tv offset :
  valid_input high low None → v_offset offset = 0%Z →
  strictly_rising high = true → strictly_rising low = true →
  bars_ordered high low = true →
  ∃ df,
    psar high low None af0 af max_af tv offset no_kwargs = Ok (Some df) ∧
    ∀ n, (n ≤ length high)%nat →
      (∀ j, (2 ≤ j < n)%nat → PSARr df !! j = Some (Some 0)) →
      (∀ j, (2 ≤ j < n)%nat →
         ∃ v, PSARl df !! j = Some (Some v) ∧ PSARs df !! j = Some None) ∧
      (∀ j v w, (2 ≤ j)%nat → (S j < n)%nat →
         PSARl df !! j = Some (Some v) → PSARl df !! S j = Some (Some w) →
         v < w).
Proof.
  intros Hv Ho Hhigh Hlow Hbars.
  destruct (psar_valid high low None af0 af max_af tv offset Hv Ho)
    as (s & c & Hr & Hp).
  set (paf := v_pos_default af 0.02) in *.
  set (a0 := v_pos_default af0 paf) in *.
  set (mx := v_pos_default max_af 0.2) in *.
  assert (0 < paf) as Hpaf by (by apply v_pos_default_pos).
  assert (0 < a0) as Ha0 by (by apply v_pos_default_pos).
  assert (0 < mx) as Hmx by (by apply v_pos_default_pos).
  destruct Hv as (Hlen & Hm & _).
  eexists. split; [exact Hp|]. simpl. intros n Hn Hrev.
  pose proof (run_rising high low paf a0 mx tv n s c Hpaf Ha0 Hmx Hhigh Hlow
                Hbars Hm Hlen Hr Hn Hrev) as Hall.
  assert (∀ j, (2 ≤ j < n)%nat →
            ∃ sj cj, run high low paf a0 mx tv None (j - 1) = Ok (sj, cj) ∧
                     falling sj = false ∧
                     long c !! j = Some (Some (sar sj)) ∧
                     short c !! j = Some None) as Hrows.
  { intros j Hj.
    destruct (Hall (j - 1)%nat) as (sj & cj & Hrj & (Hf & _) & _); [lia|].
    destruct (run_row _ _ _ _ _ _ _ _ _ _ Hr ltac:(lia) (j - 2)%nat ltac:(lia))
      as (t0 & d0 & t1 & r & _ & _ & H1 & HL & HS & _).
    replace (S (j - 2)) with (j - 1)%nat in H1 by lia.
    replace (2 + (j - 2))%nat with j in * by lia.
    rewrite Hrj in H1. injection H1 as <- _.
    rewrite Hf in HL, HS. by exists sj, cj. }
  split.
  - intros j Hj. destruct (Hrows j Hj) as (sj & cj & _ & _ & HL & HS).
    by exists (sar sj).
  - intros j v w Hj HSj Hv Hw.
    destruct (Hrows j ltac:(lia)) as (sj & cj & Hrj & _ & HL & _).
    destruct (Hrows (S j) ltac:(lia)) as (sk & ck & Hrk & _ & HL' & _).
    rewrite HL in Hv. injection Hv as <-.
    rewrite HL' in Hw. injection Hw as <-.
    replace (S j - 1)%nat with j in Hrk by lia.
    destruct (Hall j) as (sk' & ck' & Hrk' & _ & Hgrow); [lia|].
    rewrite Hrk in Hrk'. injection Hrk' as <- <-.
    destruct Hgrow as (sj' & cj' & Hrj' & Hlt); [lia|].
    rewrite Hrj in Hrj'. injection Hrj' as <- <-. done.
Qed.

(** The theorem at a four-bar rising input with af0 = 0.02, max_af = 0.2. *)
Lemma psar_rising_prefix_witness :
  ∃ df,
    psar [1; 2; 3; 4] [0; 1; 2; 3] None (Some 0.02) None (Some 0.2) false None
      no_kwargs = Ok (Some df) ∧
    ∀ n, (n ≤ 4)%nat →
      (∀ j, (2 ≤ j < n)%nat → PSARr df !! j = Some (Some 0)) →
      (∀ j, (2 ≤ j < n)%nat →
         ∃ v, PSARl df !! j = Some (Some v) ∧ PSARs df !! j = Some None) ∧
      (∀ j v w, (2 ≤ j)%nat → (S j < n)%nat →
         PSARl df !! j = Some (Some v) → PSARl df !! S j = Some (Some w) →
         v < w).
Proof.
  apply (psar_rising_prefix [1; 2; 3; 4] [0; 1; 2; 3] (Some 0.02) None
           (Some 0.2) false None).
  - unfold valid_input. simpl. repeat split; lia.
  - reflexivity.
  - reflexivity.
  - reflexivity.
  - reflexivity.
Defined.

(** C5 as stated fails.  First input: a strictly rising series of ordered
    bars with af0 = 0.02 and max_af = 0.2 whose third low, 10.015, lies
    below the unclamped candidate 10 + 0.02 * (11 - 10) = 10.02: a reversal
    is recorded at row 2.  Second input: a strictly rising series whose lows
    lie above its highs: no reversal, and long decreases from row 2 to 3. *)
Lemma psar_rising_counterexample :
  (strictly_rising [11; 11.01; 11.02] = true ∧
   strictly_rising [10; 10.01; 10.015] = true ∧
   bars_ordered [11; 11.01; 11.02] [10; 10.01; 10.015] = true ∧
   ∃ df,
     psar [11; 11.01; 11.02] [10; 10.01; 10.015] None (Some 0.02) None
       (Some 0.2) false None no_kwargs = Ok (Some df) ∧
     PSARr df !! 2%nat = Some (Some 1) ∧
     PSARl df !! 2%nat = Some None) ∧
  (strictly_rising [1; 2; 3; 4] = true ∧
   strictly_rising [10; 11; 12; 13] = true ∧
   ∃ df v w,
     psar [1; 2; 3; 4] [10; 11; 12; 13] None (Some 0.02) None (Some 0.2) false
       None no_kwargs = Ok (Some df) ∧
     PSARr df = [Some 0; Some 0; Some 0; Some 0] ∧
     PSARl df !! 2%nat = Some (Some v) ∧ PSARl df !! 3%nat = Some (Some w) ∧
     w < v).
Proof.
  split.
  - split_and!; try reflexivity.
    eexists. split_and!; [reflexivity|reflexivity|reflexivity].
  - split_and!; try reflexivity.
    eexists _, _, _. split_and!; try reflexivity.
Qed.

(** ** Failures *)

Lemma raises_Ok {A} P (a : A) : raises_within P (Ok a).
Proof. intros e H. discriminate H. Qed.

Lemma raises_bind {A B} P (m : result A) (k : A → result B) :
  raises_within P m → (∀ a, raises_within P (k a)) →
  raises_within P (m ≫= k).
Proof.
  intros Hm Hk e H. destruct m as [a|e']; simpl in H.
  - by apply (Hk a).
  - injection H as <-. by apply Hm.
Qed.

Lemma raises_iat {A} (s : list A) i : raises_within lookup_error (iat s i).
Proof.
  intros e H. unfold iat in H. destruct (s !! i); [discriminate H|].
  injection H as <-. by left.
Qed.

Lemma raises_foldM {A B} P (f : B → A → result A) l a :
  (∀ x a', raises_within P (f x a')) → raises_within P (foldM f l a).
Proof.
  intros Hf. revert a. induction l as [|x l IH]; intros a; simpl.
  - apply raises_Ok.
  - apply raises_bind; [apply Hf|apply IH].
Qed.

Ltac raises_step :=
  match goal with
  | |- raises_within _ (Ok _) => apply raises_Ok
  | |- raises_within _ (iat _ _) => apply raises_iat
  | |- raises_within _ (_ ≫= _) => apply raises_bind; [|intros ?]
  | |- raises_within _ (if ?b then _ else _) => destruct b
  | |- raises_within _ (let '(_, _) := ?p in _) => destruct p
  end.

Lemma raises_falling high low drift :
  raises_within lookup_error (_falling high low drift).
Proof.
  unfold _falling. apply raises_bind.
  - intros e H. unfold col_gt in H.
    destruct (Nat.eqb _ _); [discriminate H|]. injection H as <-. by right.
  - intros gt. apply raises_bind; [|intros ?; apply raises_Ok].
    intros e H. unfold iloc_last in H.
    destruct (last _); [discriminate H|]. injection H as <-. by left.
Qed.

Lemma raises_init_state high low af0 close :
  raises_within lookup_error (init_state high low af0 close).
Proof.
  unfold init_state. apply raises_bind; [apply raises_falling|intros f].
  repeat raises_step.
  all: destruct close as [c|]; [|apply raises_Ok].
  all: unfold v_series; simpl; apply raises_iat.
Qed.

Lemma raises_advance high low paf af0 max_af tv row s :
  raises_within lookup_error (advance high low paf af0 max_af tv row s).
Proof. unfold advance. repeat raises_step. Qed.

Lemma raises_run high low paf af0 max_af tv close k :
  raises_within lookup_error (run high low paf af0 max_af tv close k).
Proof.
  unfold run. apply raises_bind; [apply raises_init_state|intros s0].
  apply raises_foldM. intros row sc. unfold step.
  apply raises_bind; [apply raises_advance|intros [s r]; apply raises_Ok].
Qed.

(** psar raises nothing but the errors of indexing and comparing. *)
Lemma raises_psar high low close af0 af max_af tv offset kw :
  raises_within lookup_error
    (psar high low close af0 af max_af tv offset kw).
Proof.
  unfold psar. destruct (v_series high 1); [|apply raises_Ok].
  destruct (v_series low 1); [|apply raises_Ok].
  apply raises_bind; [apply raises_run|intros sc; apply raises_Ok].
Qed.

(** C6 (amended).  psar never fails with an InvalidInput error: the only
    errors it can raise are those of indexing and comparing the series.
    When high or low is empty it returns no result (None).  For high and
    low of one non-zero length (a single bar is enough) and a close that is
    not empty when given, it returns a frame. *)
Theorem psar_input_handling high low close af0 af max_af tv offset kw :
  psar high low close af0 af max_af tv offset kw ≠ Raise InvalidInput ∧
  (high = [] ∨ low = [] →
   psar high low close af0 af max_af tv offset kw = Ok None) ∧
  (high ≠ [] → length high = length low → close ≠ Some [] →
   ∃ df, psar high low close af0 af max_af tv offset kw = Ok (Some df)).
Proof.
  split_and!.
  - intros H. by destruct (raises_psar _ _ _ _ _ _ _ _ _ _ H).
  - intros [-> | ->]; [done|]. by destruct high.
  - intros Hne Hlen Hc.
    assert (low ≠ []) as Hne'.
    { intros ->. destruct high; [done|]. simpl in Hlen. lia. }
    rewrite psar_unfold by done. simpl.
    destruct (run_ok high low (v_pos_default af 0.02)
                (v_pos_default af0 (v_pos_default af 0.02))
                (v_pos_default max_af 0.2) tv close (length high - 2)
                Hne Hlen Hc) as [sc ->].
    + destruct high as [|? [|? ?]]; simpl; lia.
    + simpl. eauto.
Qed.

(** The theorem at an empty high and at a single bar. *)
Lemma psar_input_handling_witness :
  psar [] [9] None None None None false None no_kwargs = Ok None ∧
  ∃ df, psar [10] [9] None None None None false None no_kwargs = Ok (Some df).
Proof.
  split.
  - apply (psar_input_handling [] [9] None None None None false None no_kwargs).
    left. reflexivity.
  - apply (psar_input_handling [10] [9] None None None None false None
             no_kwargs).
    + discriminate.
    + reflexivity.
    + discriminate.
Defined.

(** C6 as stated fails: a single bar, and a low longer than the high, give
    a frame; an empty input gives None and no error. *)
Lemma psar_input_counterexample :
  psar [10] [9] None None None None false None no_kwargs =
    Ok (Some {| PSARl := [None]; PSARs := [None]; PSARaf := [Some 0.02];
                PSARr := [Some 0]; params := (0.02, 0.2) |}) ∧
  psar [10; 11] [9; 8; 7] None None None None false None no_kwargs =
    Ok (Some {| PSARl := [None; None]; PSARs := [None; None];
                PSARaf := [Some 0.02; Some 0.02];
                PSARr := [Some 0; Some 0]; params := (0.02, 0.2) |}) ∧
  psar [] [] None None None None false None no_kwargs = Ok None.
Proof. split_and!; reflexivity. Qed.

(** C7 (amended).  psar never fails with an InvalidParameter error: on a
    valid input it returns a frame whatever af0, af and max_af are.  The
    frame is labelled with the parameters in effect: a supplied positive
    value as it is (also when af0 exceeds max_af), otherwise the default,
    which is 0.02 for af, the value of af for af0, and 0.2 for max_af. *)
Theorem psar_parameter_handling high low close af0 af max_af tv offset kw :
  valid_input high low close →
  psar high low close af0 af max_af tv offset kw ≠ Raise InvalidParameter ∧
  ∃ df,
    psar high low close af0 af max_af tv offset kw = Ok (Some df) ∧
    params df =
      (v_pos_default af0 (v_pos_default af 0.02), v_pos_default max_af 0.2).
Proof.
  intros Hv. split.
  - intros H. by destruct (raises_psar _ _ _ _ _ _ _ _ _ _ H).
  - destruct (valid_input_aligned _ _ _ Hv) as (Hne & Hlen & Hc).
    destruct Hv as (_ & Hm & _).
    assert (low ≠ []) as Hne' by (intros ->; simpl in Hlen; lia).
    rewrite psar_unfold by done. simpl.
    destruct (run_ok high low (v_pos_default af 0.02)
                (v_pos_default af0 (v_pos_default af 0.02))
                (v_pos_default max_af 0.2) tv close (length high - 2)
                Hne Hlen Hc) as [sc ->]; [lia|].
    simpl. eauto.
Qed.

(** The theorem at af0 = 0.5 above max_af = 0.2. *)
Lemma psar_parameter_handling_witness :
  psar [1; 2; 3; 4] [0; 1; 2; 3] None (Some 0.5) None (Some 0.2) false None
    no_kwargs ≠ Raise InvalidParameter ∧
  ∃ df,
    psar [1; 2; 3; 4] [0; 1; 2; 3] None (Some 0.5) None (Some 0.2) false None
      no_kwargs = Ok (Some df) ∧
    params df = (0.5, 0.2).
Proof.
  apply (psar_parameter_handling [1; 2; 3; 4] [0; 1; 2; 3] None (Some 0.5) None
           (Some 0.2) false None no_kwargs).
  unfold valid_input. simpl. repeat split; lia.
Defined.

(** C7 as stated fails: with af0 = 0.5 above max_af = 0.2, and with a
    negative af0 and a zero max_af, psar returns a frame. *)
Lemma psar_parameter_counterexample :
  psar [10; 11] [9; 8] None (Some 0.5) (Some 0.02) (Some 0.2) false None
    no_kwargs =
    Ok (Some {| PSARl := [None; None]; PSARs := [None; None];
                PSARaf := [Some 0.5; Some 0.5];
                PSARr := [Some 0; Some 0]; params := (0.5, 0.2) |}) ∧
  psar [10; 11] [9; 8] None (Some (-1)) None (Some 0) false None no_kwargs =
    Ok (Some {| PSARl := [None; None]; PSARs := [None; None];
                PSARaf := [Some 0.02; Some 0.02];
                PSARr := [Some 0; Some 0]; params := (0.02, 0.2) |}).
Proof. split; reflexivity. Qed.

(** An extreme-point update without reversal raises af by the increment,
    capped at max_af. *)
Lemma advance_ep_update high low paf af0 max_af tv row s s' :
  advance high low paf af0 max_af tv row s = Ok (s', false) →
  ep s' ≠ ep s → af s' = Qmin (af s + paf) max_af.
Proof. intros H. advance_cases H; done. Qed.

(** C8 (amended).  When af is not supplied the increment is 0.02, whatever
    af0 is: the call equals the one with af = 0.02, and each extreme-point
    update without reversal sets the factor to min(af + 0.02, max_af).  It
    is af0 that takes the value of the increment when af0 is not supplied. *)
Theorem psar_default_increment high low close af0 af max_af tv offset kw :
  psar high low close af0 None max_af tv offset kw =
    psar high low close af0 (Some 0.02) max_af tv offset kw ∧
  psar high low close None af max_af tv offset kw =
    psar high low close (Some (v_pos_default af 0.02)) af max_af tv offset kw ∧
  ∀ row s s',
    advance high low (v_pos_default None 0.02)
      (v_pos_default af0 (v_pos_default None 0.02)) (v_pos_default max_af 0.2)
      tv row s = Ok (s', false) →
    ep s' ≠ ep s →
    Psar.af s' = Qmin (Psar.af s + 0.02) (v_pos_default max_af 0.2).
Proof.
  split_and!.
  - reflexivity.
  - unfold psar.
    assert (0 < v_pos_default af 0.02) as Hp by (by apply v_pos_default_pos).
    by rewrite (v_pos_default_Some _ (v_pos_default af 0.02) Hp).
  - intros row s s' H Hep. by apply (advance_ep_update _ _ _ _ _ _ _ _ _ H).
Qed.

(** The third part of the theorem at the first computed step of a rising
    input with af0 = 0.05 and af omitted. *)
Lemma psar_default_increment_witness :
  Psar.af {| sar := 0; ep := 3; af := Qmin (0.05 + 0.02) 0.2;
             falling := false |} =
  Qmin (Psar.af {| sar := 0; ep := 1; af := 0.05; falling := false |} + 0.02)
       (v_pos_default (Some 0.2) 0.2).
Proof.
  apply (proj2 (proj2 (psar_default_increment [1; 2; 3; 4] [0; 1; 2; 3] None
                         (Some 0.05) None (Some 0.2) false None no_kwargs))
           2%nat).
  - reflexivity.
  - discriminate.
Defined.

(** C8 as stated fails: with af0 = 0.05 and af omitted, the first
    extreme-point update gives af = 0.05 + 0.02 = 0.07, not
    0.05 + 0.05 = 0.1. *)
Lemma psar_default_increment_counterexample :
  ∃ df v,
    psar [1; 2; 3; 4] [0; 1; 2; 3] None (Some 0.05) None (Some 0.2) false None
      no_kwargs = Ok (Some df) ∧
    PSARaf df !! 1%nat = Some (Some 0.05) ∧
    PSARaf df !! 2%nat = Some (Some v) ∧
    v == 0.07 ∧ ¬ v == 0.05 + 0.05.
Proof.
  eexists _, _. split_and!; try reflexivity. discriminate.
Qed.

(** ** brar: the offset *)

Import Brar.

(** C9. In brar, when a non-zero offset is applied, the returned BR column
    is made by shifting the first output, AR, and not by shifting BR: AR is
    the AR ratio shifted by the offset, BR is that shifted AR column shifted
    by the offset again (filled like AR when a fill is asked for), and the
    BR ratio of the calculation is not used. *)
Theorem brar_offset_reuses_ar non_zero_range open_ high low close
    length scalar drift offset kw fr :
  get_offset offset ≠ 0%Z →
  brar non_zero_range open_ high low close length scalar drift offset kw
    = Some fr →
  let ar := fst (brar_calc non_zero_range open_ high low close
                   (v_length length) (v_scalar scalar) (get_drift drift)) in
  AR fr = fill kw (shift (get_offset offset) ar) ∧
  BR fr = fill kw (shift (get_offset offset) (shift (get_offset offset) ar)) ∧
  (kw = no_kwargs → BR fr = shift (get_offset offset) (AR fr)).
Proof.
  intros Ho H ar. unfold brar, verify_series, v_series in H.
  repeat match type of H with
  | context [if ?b then _ else _] =>
      lazymatch b with
      | Nat.leb _ _ => destruct b; [|discriminate H]
      end
  end.
  apply Z.eqb_neq in Ho.
  destruct (brar_calc _ _ _ _ _ _ _ _) as [ar0 br0] eqn:E in H.
  rewrite Ho in H. injection H as <-. simpl.
  subst ar. rewrite E. simpl. split_and!; [done|done|].
  by intros ->.
Qed.

(** The theorem at four bars with period 1 and offset 1. *)
Lemma brar_offset_reuses_ar_witness :
  ∃ fr,
    brar plain_range [2; 2; 2; 2] [3; 4; 5; 6] [1; 1; 1; 1] [2; 3; 2; 5]
      (Some 1%Z) (Some 1) None (Some 1%Z) no_kwargs = Some fr ∧
    AR fr = shift 1 (fst (brar_calc plain_range [2; 2; 2; 2] [3; 4; 5; 6]
                            [1; 1; 1; 1] [2; 3; 2; 5] 1 1 1)) ∧
    BR fr = shift 1 (shift 1 (fst (brar_calc plain_range [2; 2; 2; 2]
                                     [3; 4; 5; 6] [1; 1; 1; 1] [2; 3; 2; 5]
                                     1 1 1))) ∧
    BR fr = shift 1 (AR fr).
Proof.
  eexists. split; [reflexivity|].
  destruct (brar_offset_reuses_ar plain_range [2; 2; 2; 2] [3; 4; 5; 6]
              [1; 1; 1; 1] [2; 3; 2; 5] (Some 1%Z) (Some 1) None (Some 1%Z)
              no_kwargs _ ltac:(discriminate) eq_refl) as (HA & HB & HC).
  split_and!; [exact HA|exact HB|exact (HC eq_refl)].
Defined.

(** At that input the returned BR is the AR ratio moved two places, and it
    differs from the BR ratio moved one place. *)
Example brar_offset_example :
  ∃ fr,
    brar plain_range [2; 2; 2; 2] [3; 4; 5; 6] [1; 1; 1; 1] [2; 3; 2; 5]
      (Some 1%Z) (Some 1) None (Some 1%Z) no_kwargs = Some fr ∧
    map (option_map Qred) (AR fr) = [None; Some 1; Some 2; Some 3] ∧
    map (option_map Qred) (BR fr) = [None; None; Some 1; Some 2] ∧
    map (option_map Qred)
      (shift 1 (snd (brar_calc plain_range [2; 2; 2; 2] [3; 4; 5; 6]
                       [1; 1; 1; 1] [2; 3; 2; 5] 1 1 1)))
      = [None; None; Some 2; Some 1].
Proof. eexists. split_and!; reflexivity. Qed.

(** * Further properties *)

(** ** Offset and fill *)

Lemma length_shift k (c : Column) : length (shift k c) = length c.
Proof.
  unfold shift. destruct (0 <=? k)%Z.
  - rewrite length_take, length_app, length_replicate. lia.
  - rewrite length_app, length_drop, length_replicate. lia.
Qed.

Lemma shift_0 (c : Column) : shift 0 c = c.
Proof. unfold shift. simpl. apply take_ge. lia. Qed.

Lemma lookup_shift_fwd k (c : Column) i :
  (0 <= k)%Z → (i < length c)%nat →
  shift k c !! i =
  if (i <? Z.to_nat k)%nat then Some None else c !! (i - Z.to_nat k)%nat.
Proof.
  intros Hk Hi. unfold shift.
  destruct (Z.leb_spec 0 k); [|lia].
  rewrite lookup_take_lt by done.
  destruct (Nat.ltb_spec i (Z.to_nat k)).
  - rewrite lookup_app_l by (rewrite length_replicate; lia).
    apply lookup_replicate_2. lia.
  - rewrite lookup_app_r by (rewrite length_replicate; lia).
    by rewrite length_replicate.
Qed.

Lemma lookup_shift_back k (c : Column) i :
  (k < 0)%Z → (i < length c)%nat →
  shift k c !! i =
  if (i + Z.to_nat (- k) <? length c)%nat
  then c !! (i + Z.to_nat (- k))%nat else Some None.
Proof.
  intros Hk Hi. unfold shift.
  destruct (Z.leb_spec 0 k); [lia|].
  destruct (Nat.ltb_spec (i + Z.to_nat (- k)) (length c)).
  - rewrite lookup_app_l by (rewrite length_drop; lia).
    rewrite lookup_drop. f_equal. lia.
  - rewrite lookup_app_r by (rewrite length_drop; lia).
    apply lookup_replicate_2. rewrite length_drop. lia.
Qed.

Lemma length_ffill_from prev c : length (ffill_from prev c) = length c.
Proof.
  revert prev. induction c as [|[v|] c IH]; intros prev; simpl; auto.
Qed.

Lemma length_fill kw c : length (fill kw c) = length c.
Proof.
  unfold fill. destruct (fill_method kw) as [[|]|], (fillna kw);
    unfold fillna_method, fillna_value;
    rewrite ?length_reverse, ?length_ffill_from, ?length_reverse, ?length_map;
    done.
Qed.

Lemma fillna_value_defined v c : all_defined (fillna_value v c).
Proof.
  unfold all_defined, fillna_value. apply Forall_forall.
  intros x Hx. apply list_elem_of_fmap in Hx as (y & -> & _).
  destruct y; eauto.
Qed.

Lemma ffill_from_defined prev c :
  all_defined c → ffill_from prev c = c.
Proof.
  revert prev. induction c as [|x c IH]; intros prev H; [done|].
  apply Forall_cons in H as [[v ->] H]. simpl. by rewrite IH.
Qed.

Lemma fillna_method_defined m c : all_defined c → fillna_method m c = c.
Proof.
  intros H. destruct m; simpl.
  - by apply ffill_from_defined.
  - rewrite ffill_from_defined; [apply reverse_involutive|].
    unfold all_defined. by apply Forall_reverse.
Qed.

(** A frame comes from non-empty series through the loop. *)
Lemma psar_frame_inv high low close af0 af max_af tv offset kw df :
  psar high low close af0 af max_af tv offset kw = Ok (Some df) →
  ∃ s c,
    run high low (v_pos_default af 0.02)
      (v_pos_default af0 (v_pos_default af 0.02)) (v_pos_default max_af 0.2)
      tv close (length high - 2) = Ok (s, c) ∧
    df = offset_fill (v_offset offset) kw
           {| PSARl := long c; PSARs := short c; PSARaf := _af c;
              PSARr := reversal c;
              params := (v_pos_default af0 (v_pos_default af 0.02),
                         v_pos_default max_af 0.2) |}.
Proof.
  intros H.
  destruct high as [|h0 high]; [discriminate H|].
  destruct low as [|l0 low]; [discriminate H|].
  rewrite psar_unfold in H by done. simpl in H.
  apply bind_Ok in H as ([s c] & Hr & H). injection H as <-.
  exists s, c. split; [done|]. unfold offset_fill. simpl.
  destruct (Z.eqb_spec (v_offset offset) 0) as [->|_]; [|done].
  by rewrite !shift_0.
Qed.

(** X1. Whenever psar returns a frame, each of its four columns has as many
    rows as [high], whatever the offset and the fill are. *)
Theorem psar_columns_length high low close af0 af max_af tv offset kw df :
  psar high low close af0 af max_af tv offset kw = Ok (Some df) →
  Forall (fun c : Column => length c = length high) (columns df).
Proof.
  intros H. apply psar_frame_inv in H as (s & c & Hr & ->).
  destruct (run_frame _ _ _ _ _ _ _ _ _ _ Hr) as [(Hl & Hs & Ha & Hv) _].
  unfold columns, offset_fill. simpl.
  repeat constructor; by rewrite length_fill, length_shift.
Qed.

Lemma psar_columns_length_witness :
  ∃ df,
    psar [1; 2; 3; 4] [0; 1; 2; 3] None None None None false (Some 2%Z)
      {| fillna := None; fill_method := Some bfill |} = Ok (Some df) ∧
    Forall (fun c : Column => length c = 4%nat) (columns df).
Proof.
  eexists. split; [reflexivity|].
  apply (psar_columns_length [1; 2; 3; 4] [0; 1; 2; 3] None None None None
           false (Some 2%Z) {| fillna := None; fill_method := Some bfill |}).
  reflexivity.
Defined.

(** X2. Offset law: the frame for an offset and a fill is the frame of the
    call without them, each column shifted by the offset and then filled;
    the loop does not see either. *)
Theorem psar_offset_fill_law high low close af0 af max_af tv offset kw df0 :
  psar high low close af0 af max_af tv None no_kwargs = Ok (Some df0) →
  psar high low close af0 af max_af tv offset kw =
  Ok (Some (offset_fill (v_offset offset) kw df0)).
Proof.
  intros H0. pose proof H0 as H.
  apply psar_frame_inv in H as (s & c & Hr & ->).
  destruct high as [|h0 high]; [discriminate H0|].
  destruct low as [|l0 low]; [discriminate H0|].
  rewrite psar_unfold by done. cbv zeta. rewrite Hr. simpl.
  unfold offset_fill, fill. simpl. rewrite !shift_0.
  destruct (Z.eqb_spec (v_offset offset) 0) as [->|_]; [|done].
  by rewrite !shift_0.
Qed.

Lemma psar_offset_fill_law_witness :
  ∃ df0,
    psar [1; 2; 3; 4] [0; 1; 2; 3] None None None None false None no_kwargs
      = Ok (Some df0) ∧
    psar [1; 2; 3; 4] [0; 1; 2; 3] None None None None false (Some (-1)%Z)
      {| fillna := Some 7; fill_method := None |} =
    Ok (Some (offset_fill (-1) {| fillna := Some 7; fill_method := None |}
                df0)).
Proof.
  eexists. split; [reflexivity|].
  apply (psar_offset_fill_law [1; 2; 3; 4] [0; 1; 2; 3] None None None None
           false (Some (-1)%Z)).
  reflexivity.
Defined.

Lemma lookup_shift k (c : Column) i :
  (i < length c)%nat →
  shift k c !! i =
  if bool_decide (0 ≤ Z.of_nat i - k < Z.of_nat (length c))%Z
  then c !! Z.to_nat (Z.of_nat i - k) else Some None.
Proof.
  intros Hi. destruct (Z.leb_spec 0 k) as [Hk|Hk].
  - rewrite lookup_shift_fwd by done.
    destruct (Nat.ltb_spec i (Z.to_nat k)); case_bool_decide; try lia.
    + done.
    + f_equal. lia.
  - rewrite lookup_shift_back by done.
    destruct (Nat.ltb_spec (i + Z.to_nat (- k)) (length c));
      case_bool_decide; try lia.
    + f_equal. lia.
    + done.
Qed.

(** X3. Without fill, an offset [k] moves every column by [k] rows: row [i]
    of the result holds row [i - k] of the frame without offset when that
    row exists, and is missing otherwise (the first [k] rows for a positive
    offset, the last [-k] rows for a negative one). *)
Theorem psar_offset_rows high low close af0 af max_af tv k df0 dfk :
  psar high low close af0 af max_af tv None no_kwargs = Ok (Some df0) →
  psar high low close af0 af max_af tv (Some k) no_kwargs = Ok (Some dfk) →
  ∀ j c0 ck i,
    columns df0 !! j = Some c0 → columns dfk !! j = Some ck →
    (i < length high)%nat →
    ck !! i =
    if bool_decide (0 ≤ Z.of_nat i - k < Z.of_nat (length high))%Z
    then c0 !! Z.to_nat (Z.of_nat i - k) else Some None.
Proof.
  intros H0 Hk j c0 ck i Hc0 Hck Hi.
  assert (length c0 = length high) as Hlen.
  { apply psar_frame_inv in H0 as (s & c & Hr & ->).
    destruct (run_frame _ _ _ _ _ _ _ _ _ _ Hr) as [(Hl & Hs & Ha & Hv) _].
    unfold columns, offset_fill in Hc0. simpl in Hc0.
    rewrite !shift_0 in Hc0.
    destruct j as [|[|[|[|j]]]]; simpl in Hc0; try discriminate Hc0;
      by injection Hc0 as <-. }
  assert (ck = shift k c0) as ->.
  { pose proof (psar_frame_inv _ _ _ _ _ _ _ _ _ _ H0) as (s & c & Hr & E0).
    pose proof (psar_frame_inv _ _ _ _ _ _ _ _ _ _ Hk) as (s' & c' & Hr' & Ek).
    rewrite Hr in Hr'. injection Hr' as <- <-. subst df0 dfk.
    unfold columns, offset_fill in Hc0, Hck. simpl in Hc0, Hck.
    rewrite !shift_0 in Hc0.
    destruct j as [|[|[|[|j]]]]; simpl in Hc0, Hck; try discriminate Hc0;
      injection Hc0 as <-; by injection Hck as <-. }
  rewrite lookup_shift by lia. by rewrite Hlen.
Qed.

Lemma psar_offset_rows_witness :
  ∃ df0 dfk,
    psar [1; 2; 3; 4] [0; 1; 2; 3] None None None None false None no_kwargs
      = Ok (Some df0) ∧
    psar [1; 2; 3; 4] [0; 1; 2; 3] None None None None false (Some 1%Z)
      no_kwargs = Ok (Some dfk) ∧
    PSARaf dfk !! 0%nat = Some None ∧
    PSARaf dfk !! 3%nat = PSARaf df0 !! 2%nat.
Proof.
  eexists _, _. split; [reflexivity|]. split; [reflexivity|].
  split.
  - apply (psar_offset_rows [1; 2; 3; 4] [0; 1; 2; 3] None None None None
             false 1 _ _ eq_refl eq_refl 2%nat _ _ 0%nat eq_refl eq_refl).
    simpl. lia.
  - apply (psar_offset_rows [1; 2; 3; 4] [0; 1; 2; 3] None None None None
             false 1 _ _ eq_refl eq_refl 2%nat _ _ 3%nat eq_refl eq_refl).
    simpl. lia.
Defined.

Lemma fill_defined v m c :
  all_defined (fill {| fillna := Some v; fill_method := m |} c).
Proof.
  unfold fill. simpl. destruct m as [m|]; [|apply fillna_value_defined].
  rewrite fillna_method_defined; apply fillna_value_defined.
Qed.

(** X4. With a [fillna] value no row of any column is missing, whatever the
    offset and the fill method are. *)
Theorem psar_fillna_defined high low close af0 af max_af tv offset v m df :
  psar high low close af0 af max_af tv offset
    {| fillna := Some v; fill_method := m |} = Ok (Some df) →
  Forall all_defined (columns df).
Proof.
  intros H. apply psar_frame_inv in H as (s & c & _ & ->).
  unfold columns, offset_fill. simpl.
  repeat constructor; apply fill_defined.
Qed.

Lemma psar_fillna_defined_witness :
  ∃ df,
    psar [1; 2; 3; 4] [0; 1; 2; 3] None None None None false (Some 1%Z)
      {| fillna := Some 0; fill_method := Some ffill |} = Ok (Some df) ∧
    Forall all_defined (columns df).
Proof.
  eexists. split; [reflexivity|].
  apply (psar_fillna_defined [1; 2; 3; 4] [0; 1; 2; 3] None None None None
           false (Some 1%Z) 0 (Some ffill)).
  reflexivity.
Defined.

(** ** The stop and the bar *)

(** After a step the stop is on the far side of the bar of that step: at or
    above its high when falling, at or below its low when rising. *)
Lemma advance_outside high low paf af0 max_af tv row s s' r :
  advance high low paf af0 max_af tv row s = Ok (s', r) →
  ∃ h l, high !! row = Some h ∧ low !! row = Some l ∧
         if falling s' then h <= sar s' else sar s' <= l.
Proof.
  intros H. unfold advance in H.
  apply bind_Ok in H as (h & Hh%iat_Ok & H).
  apply bind_Ok in H as (l & Hl%iat_Ok & H).
  exists h, l. split; [done|]. split; [done|].
  apply bind_Ok in H as ([[[rv e1] a1] sr] & H1 & H).
  destruct (falling s) eqn:Ef.
  - destruct (Qltb l (ep s)) eqn:Eep; simpl in H1.
    all: apply bind_Ok in H1 as (h1 & _ & H1).
    all: apply bind_Ok in H1 as (h2 & _ & H1).
    all: injection H1 as <- <- <- <-.
    all: destruct (Qltb (sar s + af s * (ep s - sar s)) h) eqn:Er;
      simpl in H.
    all: try (injection H as <- <-; simpl;
              apply Qltb_ge in Er;
              eapply Qle_trans; [exact Er|apply Q.le_max_r]).
    all: apply bind_Ok in H as (v & Hv & H); injection H as <- <-; simpl.
    all: destruct tv; simpl in Hv.
    all: try (apply bind_Ok in Hv as (l1 & _ & Hv);
              apply bind_Ok in Hv as (l2 & _ & Hv)).
    all: injection Hv as <-.
    all: try apply Qle_refl.
    all: try (apply Qltb_ge in Eep; done).
    all: eapply Qle_trans; [apply Q.le_min_r|].
    all: try apply Qle_refl.
    all: by apply Qltb_ge in Eep.
  - destruct (Qltb (ep s) h) eqn:Eep; simpl in H1.
    all: apply bind_Ok in H1 as (l1 & _ & H1).
    all: apply bind_Ok in H1 as (l2 & _ & H1).
    all: injection H1 as <- <- <- <-.
    all: destruct (Qltb l (sar s + af s * (ep s - sar s))) eqn:Er;
      simpl in H.
    all: try (injection H as <- <-; simpl;
              apply Qltb_ge in Er;
              eapply Qle_trans; [apply Q.le_min_r|exact Er]).
    all: apply bind_Ok in H as (v & Hv & H); injection H as <- <-; simpl.
    all: destruct tv; simpl in Hv.
    all: try (apply bind_Ok in Hv as (h1 & _ & Hv);
              apply bind_Ok in Hv as (h2 & _ & Hv)).
    all: injection Hv as <-.
    all: try apply Qle_refl.
    all: try (apply Qltb_ge in Eep; done).
    all: eapply Qle_trans; [|apply Q.le_max_r].
    all: try apply Qle_refl.
    all: by apply Qltb_ge in Eep.
Qed.

(** X5. The stop never lies inside the bar it is recorded for: a defined
    long[i] is at or below low[i], a defined short[i] is at or above
    high[i], in both reversal variants and for all parameters. *)
Theorem psar_stop_outside_bar high low close af0 af max_af tv offset :
  valid_input high low close → v_offset offset = 0%Z →
  ∃ df,
    psar high low close af0 af max_af tv offset no_kwargs = Ok (Some df) ∧
    ∀ i v,
      (PSARl df !! i = Some (Some v) → ∃ l, low !! i = Some l ∧ v <= l) ∧
      (PSARs df !! i = Some (Some v) → ∃ h, high !! i = Some h ∧ h <= v).
Proof.
  intros Hv Ho.
  destruct (psar_valid high low close af0 af max_af tv offset Hv Ho)
    as (s & c & Hr & Hp).
  destruct Hv as (Hlen & Hm & _).
  destruct (run_frame _ _ _ _ _ _ _ _ _ _ Hr) as [(HlenL & HlenS & _) Hseed].
  eexists. split; [exact Hp|]. simpl. intros i v.
  assert (∀ col : Column,
            (col = long c ∨ col = short c) → col !! i = Some (Some v) →
            (2 ≤ i < length high)%nat) as Hrange.
  { intros col Hcol Hi. split.
    - destruct (decide (i < 2)%nat) as [Hi2|]; [|lia].
      destruct (Hseed i) as (HL & HS & _); [lia|].
      destruct (init_cols_seed (v_pos_default af0 (v_pos_default af 0.02))
                  (length high) i Hi2 Hm) as (HL0 & HS0 & _).
      destruct Hcol as [-> | ->]; congruence.
    - apply lookup_lt_Some in Hi. destruct Hcol as [-> | ->]; lia. }
  split; intros Hi.
  - destruct (Hrange _ (or_introl eq_refl) Hi) as [H2 Hn].
    destruct (run_row _ _ _ _ _ _ _ _ _ _ Hr ltac:(lia) (i - 2)%nat ltac:(lia))
      as (s0 & c0 & s1 & r & _ & Ha & _ & HL & _).
    replace (2 + (i - 2))%nat with i in * by lia.
    destruct (advance_outside _ _ _ _ _ _ _ _ _ _ Ha) as (h & l & Hh & Hl & Hout).
    rewrite HL in Hi. destruct (falling s1); [discriminate Hi|].
    injection Hi as <-. eauto.
  - destruct (Hrange _ (or_intror eq_refl) Hi) as [H2 Hn].
    destruct (run_row _ _ _ _ _ _ _ _ _ _ Hr ltac:(lia) (i - 2)%nat ltac:(lia))
      as (s0 & c0 & s1 & r & _ & Ha & _ & _ & HS & _).
    replace (2 + (i - 2))%nat with i in * by lia.
    destruct (advance_outside _ _ _ _ _ _ _ _ _ _ Ha) as (h & l & Hh & Hl & Hout).
    rewrite HS in Hi. destruct (falling s1); [|discriminate Hi].
    injection Hi as <-. eauto.
Qed.

Lemma psar_stop_outside_bar_witness :
  ∃ df,
    psar [11; 11.01; 11.02] [10; 10.01; 10.015] None None None None true None
      no_kwargs = Ok (Some df) ∧
    ∀ i v,
      (PSARl df !! i = Some (Some v) →
       ∃ l, [10; 10.01; 10.015] !! i = Some l ∧ v <= l) ∧
      (PSARs df !! i = Some (Some v) →
       ∃ h, [11; 11.01; 11.02] !! i = Some h ∧ h <= v).
Proof.
  apply (psar_stop_outside_bar [11; 11.01; 11.02] [10; 10.01; 10.015] None
           None None None true None).
  - unfold valid_input. simpl. repeat split; lia.
  - reflexivity.
Defined.

(** ** When the trend reverses *)

(** The flag of a step is the test of the bar against the candidate stop
    before its clamp. *)
Lemma advance_flag high low paf af0 max_af tv row s s' r :
  advance high low paf af0 max_af tv row s = Ok (s', r) →
  ∃ h l, high !! row = Some h ∧ low !! row = Some l ∧
         r = if falling s
             then Qltb (sar s + af s * (ep s - sar s)) h
             else Qltb l (sar s + af s * (ep s - sar s)).
Proof.
  intros H. unfold advance in H.
  apply bind_Ok in H as (h & Hh%iat_Ok & H).
  apply bind_Ok in H as (l & Hl%iat_Ok & H).
  exists h, l. split; [done|]. split; [done|].
  apply bind_Ok in H as ([[[rv e1] a1] sr] & H1 & H).
  assert (rv = if falling s
               then Qltb (sar s + af s * (ep s - sar s)) h
               else Qltb l (sar s + af s * (ep s - sar s))) as Hrv.
  { destruct (falling s).
    - destruct (Qltb l (ep s)); simpl in H1.
      all: apply bind_Ok in H1 as (h1 & _ & H1).
      all: apply bind_Ok in H1 as (h2 & _ & H1).
      all: by injection H1 as <- _ _ _.
    - destruct (Qltb (ep s) h); simpl in H1.
      all: apply bind_Ok in H1 as (l1 & _ & H1).
      all: apply bind_Ok in H1 as (l2 & _ & H1).
      all: by injection H1 as <- _ _ _. }
  rewrite <- Hrv. destruct rv.
  - apply bind_Ok in H as (v & _ & H). by injection H as _ <-.
  - by injection H as _ <-.
Qed.

(** X6. The reversal flag of row [i] is the test of bar [i] against the
    candidate stop [sar + af * (ep - sar)] of the scalars after step [i-1],
    taken before the candidate is clamped to the two previous bars: when
    falling, high[i] above it; when rising, low[i] below it. *)
Theorem psar_reversal_test high low close af0 af max_af tv offset :
  valid_input high low close → v_offset offset = 0%Z →
  let paf := v_pos_default af 0.02 in
  let a0 := v_pos_default af0 paf in
  let mx := v_pos_default max_af 0.2 in
  ∃ df,
    psar high low close af0 af max_af tv offset no_kwargs = Ok (Some df) ∧
    ∀ i, (2 ≤ i < length high)%nat →
      ∃ s h l,
        state_after high low paf a0 mx tv close (i - 1) = Ok s ∧
        high !! i = Some h ∧ low !! i = Some l ∧
        let cand := sar s + Psar.af s * (ep s - sar s) in
        PSARr df !! i =
        Some (Some (if (if falling s then Qltb cand h else Qltb l cand)
                    then 1 else 0)).
Proof.
  intros Hv Ho paf a0 mx.
  destruct (psar_valid high low close af0 af max_af tv offset Hv Ho)
    as (s & c & Hr & Hp).
  fold paf a0 mx in Hr, Hp.
  eexists. split; [exact Hp|]. simpl. intros i Hi.
  destruct (run_row _ _ _ _ _ _ _ _ _ _ Hr ltac:(lia) (i - 2)%nat ltac:(lia))
    as (s0 & c0 & s1 & r & H0 & Ha & _ & _ & _ & _ & Hrev).
  replace (2 + (i - 2))%nat with i in * by lia.
  destruct (advance_flag _ _ _ _ _ _ _ _ _ _ Ha) as (h & l & Hh & Hl & ->).
  exists s0, h, l. split_and!; try done.
  replace (i - 1)%nat with (S (i - 2)) by lia. by eapply state_after_S.
Qed.

Lemma psar_reversal_test_witness :
  ∃ df,
    psar [11; 11.01; 11.02] [10; 10.01; 10.015] None None None None false None
      no_kwargs = Ok (Some df) ∧
    ∀ i, (2 ≤ i < 3)%nat →
      ∃ s h l,
        state_after [11; 11.01; 11.02] [10; 10.01; 10.015] 0.02 0.02 0.2 false
          None (i - 1) = Ok s ∧
        [11; 11.01; 11.02] !! i = Some h ∧
        [10; 10.01; 10.015] !! i = Some l ∧
        let cand := sar s + Psar.af s * (ep s - sar s) in
        PSARr df !! i =
        Some (Some (if (if falling s then Qltb cand h else Qltb l cand)
                    then 1 else 0)).
Proof.
  apply (psar_reversal_test [11; 11.01; 11.02] [10; 10.01; 10.015] None None
           None None false None).
  - unfold valid_input. simpl. repeat split; lia.
  - reflexivity.
Defined.





(** ** The acceleration factor within a trend *)

Lemma advance_af_keep high low paf af0 max_af tv row s s' :
  advance high low paf af0 max_af tv row s = Ok (s', false) →
  af s' = af s ∨ af s' = Qmin (af s + paf) max_af.
Proof. intros H. advance_cases H; auto. Qed.

(** The factor recorded at row [i >= 1] is the factor of the scalars after
    step [i]. *)
Lemma run_af_row high low paf af0 max_af tv close s c i si :
  run high low paf af0 max_af tv close (length high - 2) = Ok (s, c) →
  (1 ≤ i < length high)%nat →
  state_after high low paf af0 max_af tv close i = Ok si →
  _af c !! i = Some (Some (af si)).
Proof.
  intros Hr Hi Hsi. unfold state_after in Hsi.
  apply bind_Ok in Hsi as ([si' ci] & Hri & Hsi). injection Hsi as <-.
  destruct (decide (i = 1%nat)) as [->|Hne].
  - destruct (run_frame _ _ _ _ _ _ _ _ _ _ Hr) as [_ Hseed].
    destruct (Hseed 1%nat) as (_ & _ & -> & _); [lia|].
    destruct (init_cols_seed af0 (length high) 1) as (_ & _ & -> & _);
      [lia|lia|].
    simpl in Hri. unfold run in Hri.
    apply bind_Ok in Hri as (s0 & Hi0 & Hri). simpl in Hri.
    injection Hri as <- _. simpl.
    by rewrite (init_state_af _ _ _ _ _ Hi0).
  - destruct (run_row _ _ _ _ _ _ _ _ _ _ Hr ltac:(lia) (i - 2)%nat ltac:(lia))
      as (s0 & c0 & s1 & r & _ & _ & H1 & _ & _ & Haf & _).
    replace (S (i - 2)) with (i - 1)%nat in H1 by lia.
    replace (2 + (i - 2))%nat with i in * by lia.
    rewrite Hri in H1. injection H1 as <- _. done.
Qed.

(** X8. With [0 < af0 <= max_af] the factor never falls within a trend:
    at a row without reversal, af[i] is at least af[i-1]. *)
Theorem psar_af_monotone high low close a0 af mx tv offset :
  valid_input high low close → v_offset offset = 0%Z →
  0 < a0 → a0 <= mx →
  ∃ df,
    psar high low close (Some a0) af (Some mx) tv offset no_kwargs
      = Ok (Some df) ∧
    ∀ i u v,
      (2 ≤ i)%nat → PSARr df !! i = Some (Some 0) →
      PSARaf df !! (i - 1)%nat = Some (Some u) →
      PSARaf df !! i = Some (Some v) →
      u <= v.
Proof.
  intros Hv Ho Ha0 Hle.
  destruct (psar_valid high low close (Some a0) af (Some mx) tv offset Hv Ho)
    as (s & c & Hr & Hp).
  assert (0 < mx) as Hmx by (by apply Qlt_le_trans with a0).
  rewrite !v_pos_default_Some in Hr, Hp by done.
  set (paf := v_pos_default af 0.02) in *.
  assert (0 < paf) as Hpaf by (by apply v_pos_default_pos).
  destruct (run_frame _ _ _ _ _ _ _ _ _ _ Hr) as [(_ & _ & _ & HlenR) _].
  eexists. split; [exact Hp|]. simpl. intros i u v Hi Hrev Hu Hw.
  assert (i < length high)%nat as Hlt.
  { rewrite <- HlenR. by eapply lookup_lt_Some. }
  destruct (run_row _ _ _ _ _ _ _ _ _ _ Hr ltac:(lia) (i - 2)%nat ltac:(lia))
    as (s0 & c0 & s1 & r & H0 & Ha & H1 & _ & _ & Haf & Hr1).
  replace (2 + (i - 2))%nat with i in * by lia.
  rewrite Hr1 in Hrev. destruct r; [discriminate Hrev|].
  rewrite Haf in Hw. injection Hw as <-.
  assert (state_after high low paf a0 mx tv close (i - 1) = Ok s0) as Hs0.
  { replace (i - 1)%nat with (S (i - 2)) by lia. by eapply state_after_S. }
  assert (1 ≤ i - 1 < length high)%nat as Hi1 by lia.
  rewrite (run_af_row _ _ _ _ _ _ _ _ _ _ _ Hr Hi1 Hs0) in Hu.
  injection Hu as <-.
  destruct (run_af_bounds _ _ _ _ _ _ _ _ _ _ Hpaf Hle H0) as [_ Hhi].
  destruct (advance_af_keep _ _ _ _ _ _ _ _ _ Ha) as [-> | ->].
  - apply Qle_refl.
  - apply Q.min_glb; [lra|done].
Qed.

Lemma psar_af_monotone_witness :
  ∃ df,
    psar [1; 2; 3; 4] [0; 1; 2; 3] None (Some 0.02) None (Some 0.2) false None
      no_kwargs = Ok (Some df) ∧
    ∀ i u v,
      (2 ≤ i)%nat → PSARr df !! i = Some (Some 0) →
      PSARaf df !! (i - 1)%nat = Some (Some u) →
      PSARaf df !! i = Some (Some v) →
      u <= v.
Proof.
  apply (psar_af_monotone [1; 2; 3; 4] [0; 1; 2; 3] None 0.02 None 0.2 false
           None).
  - unfold valid_input. simpl. repeat split; lia.
  - reflexivity.
  - reflexivity.
  - discriminate.
Defined.

(** X9. When af0 equals max_af the factor never moves: every row of the
    af column holds a value equal to af0. *)
Theorem psar_af_constant high low close a af tv offset :
  valid_input high low close → v_offset offset = 0%Z → 0 < a →
  ∃ df,
    psar high low close (Some a) af (Some a) tv offset no_kwargs
      = Ok (Some df) ∧
    ∀ i, (i < length high)%nat →
      ∃ v, PSARaf df !! i = Some (Some v) ∧ v == a.
Proof.
  intros Hv Ho Ha.
  destruct (psar_valid high low close (Some a) af (Some a) tv offset Hv Ho)
    as (s & c & Hr & Hp).
  rewrite !v_pos_default_Some in Hr, Hp by done.
  set (paf := v_pos_default af 0.02) in *.
  assert (0 < paf) as Hpaf by (by apply v_pos_default_pos).
  destruct Hv as (Hlen & Hm & Hc).
  eexists. split; [exact Hp|]. simpl. intros i Hi.
  destruct (decide (i < 2)%nat) as [Hi2|Hi2].
  - destruct (run_frame _ _ _ _ _ _ _ _ _ _ Hr) as [_ Hseed].
    destruct (Hseed i) as (_ & _ & -> & _); [lia|].
    destruct (init_cols_seed a (length high) i Hi2 Hm) as (_ & _ & -> & _).
    by exists a.
  - destruct (run_row _ _ _ _ _ _ _ _ _ _ Hr ltac:(lia) (i - 2)%nat ltac:(lia))
      as (s0 & c0 & s1 & r & _ & _ & H1 & _ & _ & Haf & _).
    replace (2 + (i - 2))%nat with i in * by lia.
    destruct (run_af_bounds _ _ _ _ _ _ _ _ _ _ Hpaf (Qle_refl a) H1)
      as [Hlo Hhi].
    exists (Psar.af s1). split; [done|]. by apply Qle_antisym.
Qed.

Lemma psar_af_constant_witness :
  ∃ df,
    psar [1; 2; 3; 4] [0; 1; 2; 3] None (Some 0.05) None (Some 0.05) false
      None no_kwargs = Ok (Some df) ∧
    ∀ i, (i < 4)%nat → ∃ v, PSARaf df !! i = Some (Some v) ∧ v == 0.05.
Proof.
  apply (psar_af_constant [1; 2; 3; 4] [0; 1; 2; 3] None 0.05 None false None).
  - unfold valid_input. simpl. repeat split; lia.
  - reflexivity.
  - reflexivity.
Defined.

(** ** Series of different lengths *)

Lemma iat_ge {A} (s : list A) i :
  (length s ≤ i)%nat → iat s i = Raise IndexError.
Proof. intros H. unfold iat. by rewrite lookup_ge_None_2. Qed.

Lemma run_raise_S high low paf af0 max_af tv close k e :
  run high low paf af0 max_af tv close k = Raise e →
  run high low paf af0 max_af tv close (S k) = Raise e.
Proof. intros H. by rewrite run_S, H. Qed.

Lemma run_raise_le high low paf af0 max_af tv close k k' e :
  run high low paf af0 max_af tv close k = Raise e → (k ≤ k')%nat →
  run high low paf af0 max_af tv close k' = Raise e.
Proof.
  intros H Hk. induction Hk as [|k' _ IH]; [done|]. by apply run_raise_S.
Qed.

(** The loop runs as far as both series reach. *)
Lemma run_ok_both high low paf af0 max_af tv close k :
  (2 ≤ length high)%nat → (2 ≤ length low)%nat → close ≠ Some [] →
  (2 + k ≤ length high)%nat → (2 + k ≤ length low)%nat →
  ∃ sc, run high low paf af0 max_af tv close k = Ok sc.
Proof.
  intros Hh Hl Hc. induction k as [|k IH]; intros Hkh Hkl.
  - destruct high as [|h0 [|h1 hs]]; simpl in Hh; try lia.
    destruct low as [|l0 [|l1 ls]]; simpl in Hl; try lia.
    unfold run. rewrite init_state_two. cbv zeta.
    destruct close as [[|c0 cs]|]; [done| |]; simpl; eauto.
  - destruct IH as [[s c] Hr]; [lia|lia|].
    destruct (advance_ok high low paf af0 max_af tv (2 + k) s) as (s' & r & Ha);
      [lia|lia|lia|].
    exists (s', record (2 + k) s' r c).
    rewrite run_S, Hr. simpl. unfold step. simpl in *. by rewrite Ha.
Qed.

(** X10. A low series shorter than the high series (both with the two seed
    bars) is not rejected up front: the loop raises an IndexError when it
    reaches the first row that low does not have. *)
Theorem psar_short_low_raises high low close af0 af max_af tv offset kw :
  (2 ≤ length low)%nat → (length low < length high)%nat →
  close ≠ Some [] →
  psar high low close af0 af max_af tv offset kw = Raise IndexError.
Proof.
  intros Hl Hlt Hc.
  assert (high ≠ []) as Hne by (intros ->; simpl in Hlt; lia).
  assert (low ≠ []) as Hne' by (intros ->; simpl in Hl; lia).
  rewrite psar_unfold by done. cbv zeta.
  set (paf := v_pos_default af 0.02).
  set (a0 := v_pos_default af0 paf).
  set (mx := v_pos_default max_af 0.2).
  destruct (run_ok_both high low paf a0 mx tv close (length low - 2))
    as [[s c] Hr]; [lia|lia|done|lia|lia|].
  assert (run high low paf a0 mx tv close (S (length low - 2))
          = Raise IndexError) as Hraise.
  { rewrite run_S, Hr. simpl. unfold step, advance. simpl.
    replace (S (S (length low - 2))) with (length low) by lia.
    destruct (iat_lt high (length low) Hlt) as [h ->]. simpl.
    by rewrite (iat_ge low (length low)) by lia. }
  rewrite (run_raise_le _ _ _ _ _ _ _ _ (length high - 2) _ Hraise) by lia.
  done.
Qed.

Lemma psar_short_low_raises_witness :
  psar [10; 11; 12] [9; 8] None None None None false None no_kwargs
    = Raise IndexError.
Proof.
  apply (psar_short_low_raises [10; 11; 12] [9; 8] None None None None false
           None no_kwargs).
  - simpl. lia.
  - simpl. lia.
  - discriminate.
Defined.

Lemma length_to_col p : length (to_col p) = length p.
Proof. unfold to_col. apply length_map. Qed.

(** The falling test compares two series of one length only. *)
Lemma falling_mismatch high low drift :
  length high ≠ length low → _falling high low drift = Raise ValueError.
Proof.
  intros Hne. unfold _falling, col_gt, col_sub.
  rewrite !length_zip_with, !length_shift, !length_to_col, !Nat.min_id.
  destruct (Nat.eqb_spec (length low) (length high)); [congruence|done].
Qed.

(** X11. When exactly one of high and low has a single bar, the seed test
    compares series of different lengths and psar raises a ValueError. *)
Theorem psar_single_bar_mismatch high low close af0 af max_af tv offset kw :
  (length high = 1%nat ∧ 2 ≤ length low)%nat ∨
  (2 ≤ length high ∧ length low = 1%nat)%nat →
  psar high low close af0 af max_af tv offset kw = Raise ValueError.
Proof.
  intros H.
  assert (high ≠ []) as Hne by (intros ->; simpl in H; lia).
  assert (low ≠ []) as Hne' by (intros ->; simpl in H; lia).
  assert (length (take 2 high) ≠ length (take 2 low)) as Hlen.
  { rewrite !length_take. lia. }
  rewrite psar_unfold by done. cbv zeta.
  assert (∀ paf a0 mx k,
            run high low paf a0 mx tv close k = Raise ValueError) as ->; [|done].
  intros paf a0 mx k. apply run_raise_le with 0%nat; [|lia].
  unfold run, init_state. by rewrite falling_mismatch.
Qed.

Lemma psar_single_bar_mismatch_witness :
  psar [10] [9; 8] None None None None false None no_kwargs
    = Raise ValueError.
Proof.
  apply (psar_single_bar_mismatch [10] [9; 8] None None None None false None
           no_kwargs).
  left. simpl. lia.
Defined.

Lemma foldM_ext {A B} (f g : B → A → result A) l a :
  (∀ x a', x ∈ l → f x a' = g x a') → foldM f l a = foldM g l a.
Proof.
  revert a. induction l as [|x l IH]; intros a Hfg; [done|]. simpl.
  rewrite Hfg by left.
  destruct (g x a) as [a'|e]; simpl; [|done].
  apply IH. intros y a'' Hy. apply Hfg. by right.
Qed.

Lemma bind_ext {A B} (m : result A) (f g : A → result B) :
  (∀ a, f a = g a) → m ≫= f = m ≫= g.
Proof. intros H. destruct m; simpl; auto. Qed.

Lemma iat_take {A} (s : list A) n i :
  (i < n)%nat → iat (take n s) i = iat s i.
Proof. intros H. unfold iat. by rewrite lookup_take_lt. Qed.

(** A step at a row below [n] reads low below [n] only. *)
Lemma advance_take_low high low paf af0 max_af tv n row s :
  (row < n)%nat →
  advance high (take n low) paf af0 max_af tv row s
  = advance high low paf af0 max_af tv row s.
Proof.
  intros H. unfold advance. by rewrite !iat_take by lia.
Qed.

(** X12. Low values beyond the length of high are never read: with at least
    two bars in high, a longer low gives the result of low cut to the length
    of high. *)
Theorem psar_long_low_ignored high low close af0 af max_af tv offset kw :
  (2 ≤ length high)%nat → (length high ≤ length low)%nat →
  psar high low close af0 af max_af tv offset kw =
  psar high (take (length high) low) close af0 af max_af tv offset kw.
Proof.
  intros Hh Hle.
  assert (high ≠ []) as Hne by (intros ->; simpl in Hh; lia).
  assert (low ≠ []) as Hne' by (intros ->; simpl in Hle; lia).
  assert (take (length high) low ≠ []) as Hne''.
  { intros E. apply (f_equal length) in E. rewrite length_take in E.
    simpl in E. lia. }
  rewrite !psar_unfold by done. cbv zeta.
  assert (∀ paf a0 mx k, (2 + k ≤ length high)%nat ∨ k = 0%nat →
            run high (take (length high) low) paf a0 mx tv close k =
            run high low paf a0 mx tv close k) as ->; [|done|].
  - intros paf a0 mx k Hk. unfold run, init_state.
    rewrite take_take, Nat.min_l by lia.
    rewrite iat_take by lia.
    destruct (_falling _ _ _) as [f|]; [|done]. simpl.
    destruct (iat high 0) as [h0|]; [|done]. simpl.
    destruct (iat low 0) as [l0|]; [|done]. simpl.
    apply bind_ext. intros s0. unfold loop. apply foldM_ext.
    intros row [s c] Hrow. unfold step.
    apply list_elem_of_In, in_seq in Hrow.
    by rewrite advance_take_low by lia.
  - destruct high as [|? [|? ?]]; simpl in *; lia.
Qed.

Lemma psar_long_low_ignored_witness :
  psar [10; 11] [9; 8; 7] None None None None false None no_kwargs =
  psar [10; 11] (take 2 [9; 8; 7]) None None None None false None no_kwargs.
Proof.
  apply (psar_long_low_ignored [10; 11] [9; 8; 7] None None None None false
           None no_kwargs).
  - simpl. lia.
  - simpl. lia.
Defined.

(** ** The close series *)

(** X13. Of a close series only the first value is read: it seeds the stop,
    and the rest of the series has no effect on the result. *)
Theorem psar_close_first_only high low c0 cs af0 af max_af tv offset kw :
  psar high low (Some (c0 :: cs)) af0 af max_af tv offset kw =
  psar high low (Some [c0]) af0 af max_af tv offset kw.
Proof. reflexivity. Qed.

(** ** The falling test on longer slices *)

Lemma lookup_to_col p i x : p !! i = Some x → to_col p !! i = Some (Some x).
Proof. intros H. unfold to_col. change map with (@fmap list _). by rewrite list_lookup_fmap, H. Qed.

Lemma iloc_last_lookup {A} (s : list A) x :
  s !! pred (length s) = Some x → iloc_last s = Ok x.
Proof. intros H. unfold iloc_last. by rewrite last_lookup, H. Qed.

(** X14. With drift 1 the falling test looks at the last two bars of the
    series it is given: for high and low of one length of at least two it
    is true exactly when the last fall of low exceeds the last rise of high
    and is positive. *)
Theorem falling_last_two high low n h0 h1 l0 l1 :
  length high = S (S n) → length low = S (S n) →
  high !! n = Some h0 → high !! S n = Some h1 →
  low !! n = Some l0 → low !! S n = Some l1 →
  _falling high low 1 = Ok (Qltb (h1 - h0) (l0 - l1) && Qltb 0 (l0 - l1)).
Proof.
  intros Hlh Hll Hh0 Hh1 Hl0 Hl1. unfold _falling.
  set (H := to_col high). set (L := to_col low).
  assert (length H = S (S n)) as HlH by (unfold H; by rewrite length_to_col).
  assert (length L = S (S n)) as HlL by (unfold L; by rewrite length_to_col).
  set (up := col_sub H (shift 1 H)). set (dn := col_sub (shift 1 L) L).
  assert (length up = S (S n)) as Hlup.
  { unfold up, col_sub. rewrite length_zip_with, length_shift. lia. }
  assert (length dn = S (S n)) as Hldn.
  { unfold dn, col_sub. rewrite length_zip_with, length_shift. lia. }
  assert (up !! S n = Some (Some (h1 - h0))) as Eup.
  { unfold up, col_sub. rewrite lookup_zip_with.
    rewrite lookup_shift_fwd by lia. change (Z.to_nat 1) with 1%nat.
    destruct (Nat.ltb_spec (S n) 1); [lia|].
    replace (S n - 1)%nat with n by lia. unfold H.
    by rewrite (lookup_to_col _ _ _ Hh1), (lookup_to_col _ _ _ Hh0). }
  assert (dn !! S n = Some (Some (l0 - l1))) as Edn.
  { unfold dn, col_sub. rewrite lookup_zip_with.
    rewrite lookup_shift_fwd by lia. change (Z.to_nat 1) with 1%nat.
    destruct (Nat.ltb_spec (S n) 1); [lia|].
    replace (S n - 1)%nat with n by lia. unfold L.
    by rewrite (lookup_to_col _ _ _ Hl1), (lookup_to_col _ _ _ Hl0). }
  unfold col_gt. rewrite Hlup, Hldn, Nat.eqb_refl. simpl.
  set (b := Qltb (h1 - h0) (l0 - l1) && Qltb 0 (l0 - l1)).
  erewrite iloc_last_lookup; [simpl|].
  2:{ change map with (@fmap list _).
      rewrite length_fmap, !length_zip_with, length_fmap, Hlup, Hldn.
      rewrite !Nat.min_id. simpl.
      rewrite list_lookup_fmap, !lookup_zip_with, list_lookup_fmap.
      rewrite Eup, Edn. simpl. reflexivity. }
  f_equal. fold b. rewrite zero_pos. subst b.
  destruct (Qltb (h1 - h0) (l0 - l1) && Qltb 0 (l0 - l1)) eqn:E.
  - apply andb_prop in E as [_ E]. apply Qltb_lt. apply Qltb_lt in E.
    by rewrite Qmult_1_l.
  - apply Qltb_ge. rewrite Qmult_0_l. apply Qle_refl.
Qed.

Lemma falling_last_two_witness :
  _falling [10; 12; 11] [9; 10; 7] 1 = Ok (Qltb (11 - 12) (10 - 7) && Qltb 0 (10 - 7)).
Proof.
  apply (falling_last_two [10; 12; 11] [9; 10; 7] 1 12 11 10 7);
    reflexivity.
Defined.

(** ** brar: what the offset drops, and the warm-up rows *)

Import Brar.

(** X15. With a non-zero offset the result of brar does not depend on the
    values of close: both returned columns come from the AR ratio, which is
    made of open, high and low.  Two close series of sufficient length give
    the same frame. *)
Theorem brar_offset_ignores_close non_zero_range open_ high low close close'
    length scalar drift offset kw :
  get_offset offset ≠ 0%Z →
  (v_length length ≤ List.length close)%nat →
  (v_length length ≤ List.length close')%nat →
  brar non_zero_range open_ high low close length scalar drift offset kw =
  brar non_zero_range open_ high low close' length scalar drift offset kw.
Proof.
  intros Ho Hc Hc'. unfold brar, verify_series, v_series.
  apply Nat.leb_le in Hc, Hc'. rewrite Hc, Hc'.
  apply Z.eqb_neq in Ho. rewrite Ho.
  destruct (_ <=? List.length open_)%nat; [|done].
  destruct (_ <=? List.length high)%nat; [|done].
  destruct (_ <=? List.length low)%nat; [|done].
  reflexivity.
Qed.

Lemma brar_offset_ignores_close_witness :
  brar plain_range [2; 2; 2; 2] [3; 4; 5; 6] [1; 1; 1; 1] [2; 3; 2; 5]
    (Some 1%Z) (Some 1) None (Some 1%Z) no_kwargs =
  brar plain_range [2; 2; 2; 2] [3; 4; 5; 6] [1; 1; 1; 1] [9; 9; 9; 9]
    (Some 1%Z) (Some 1) None (Some 1%Z) no_kwargs.
Proof.
  apply (brar_offset_ignores_close plain_range [2; 2; 2; 2] [3; 4; 5; 6]
           [1; 1; 1; 1] [2; 3; 2; 5] [9; 9; 9; 9] (Some 1%Z) (Some 1) None
           (Some 1%Z) no_kwargs).
  - discriminate.
  - simpl. lia.
  - simpl. lia.
Defined.

Lemma rolling_sum_warmup n (c : Column) i :
  (S i < n)%nat → no_value (rolling_sum n c) i.
Proof.
  intros Hi v. unfold rolling_sum. rewrite list_lookup_imap.
  destruct (c !! i); simpl; [|done].
  destruct (Nat.leb_spec n (S i)); [lia|done].
Qed.

Lemma col_scale_no_value k c i : no_value c i → no_value (col_scale k c) i.
Proof.
  intros H v. unfold col_scale. change map with (@fmap list _).
  rewrite list_lookup_fmap. destruct (c !! i) as [[x|]|] eqn:E; simpl; try done.
  by destruct (H x).
Qed.

Lemma col_div_no_value a b i : no_value a i → no_value (col_div a b) i.
Proof.
  intros H v. unfold col_div. rewrite lookup_zip_with.
  set (a' := a ++ _). set (b' := b ++ _).
  assert (a' !! i = Some None ∨ a' !! i = None) as [-> | ->].
  { unfold a'. destruct (decide (i < length a)%nat) as [Hi|Hi].
    - rewrite lookup_app_l by done.
      destruct (a !! i) as [[x|]|] eqn:E; auto. by destruct (H x).
    - rewrite lookup_app_r by lia.
      destruct (replicate _ _ !! _) as [y|] eqn:E; auto.
      apply lookup_replicate in E as [-> _]. auto. }
  - simpl. destruct (b' !! i); simpl; done.
  - done.
Qed.

(** X16. Without offset and fill the first [length - 1] rows of AR and of
    BR hold no value: the rolling sums of the period are not defined there. *)
Theorem brar_warmup_rows non_zero_range open_ high low close
    length scalar drift offset fr :
  get_offset offset = 0%Z →
  brar non_zero_range open_ high low close length scalar drift offset
    no_kwargs = Some fr →
  ∀ i, (S i < v_length length)%nat → no_value (AR fr) i ∧ no_value (BR fr) i.
Proof.
  intros Ho H i Hi. unfold brar, verify_series, v_series in H.
  repeat match type of H with
  | context [if ?b then _ else _] =>
      lazymatch b with
      | Nat.leb _ _ => destruct b; [|discriminate H]
      end
  end.
  rewrite Ho in H. simpl in H. injection H as <-. simpl.
  split; apply col_div_no_value, col_scale_no_value, rolling_sum_warmup;
    done.
Qed.

Lemma brar_warmup_rows_witness :
  ∃ fr,
    brar plain_range [2; 2; 2; 2] [3; 4; 5; 6] [1; 1; 1; 1] [2; 3; 2; 5]
      (Some 3%Z) None None None no_kwargs = Some fr ∧
    ∀ i, (S i < 3)%nat → no_value (AR fr) i ∧ no_value (BR fr) i.
Proof.
  eexists. split; [reflexivity|].
  apply (brar_warmup_rows plain_range [2; 2; 2; 2] [3; 4; 5; 6] [1; 1; 1; 1]
           [2; 3; 2; 5] (Some 3%Z) None None None); reflexivity.
Defined.

Import Ema.

(** ** ema *)

Lemma ewm_from_length alpha adjust st c :
  length (ewm_from alpha adjust st c) = length c.
Proof.
  revert st. induction c as [|x c IH]; intros st; simpl; auto.
Qed.

Lemma ewm_mean_length span adjust c :
  length (ewm_mean span adjust c) = length c.
Proof. destruct c; simpl; [done|]. by rewrite ewm_from_length. Qed.

Lemma ewm_from_lead alpha adjust k v rest :
  ewm_from alpha adjust (None, 1) (replicate k None ++ Some v :: rest) =
  replicate k None ++ Some v :: ewm_from alpha adjust (Some v, 1) rest.
Proof. induction k as [|k IH]; simpl; [done|]. by rewrite IH. Qed.

Lemma ewm_mean_lead span adjust k v rest :
  ewm_mean span adjust (replicate k None ++ Some v :: rest) =
  replicate k None ++ Some v ::
    ewm_from (span_alpha span) adjust (Some v, 1) rest.
Proof.
  destruct k as [|k]; simpl; [done|]. by rewrite ewm_from_lead.
Qed.

Lemma presma_seed_eq n close :
  (1 ≤ n ≤ length close)%nat →
  presma_seed n close =
  replicate (n - 1) None ++ Some (mean (take n close)) ::
    to_col (drop n close).
Proof.
  intros Hn. unfold presma_seed.
  rewrite Nat.min_l by lia.
  destruct (drop (n - 1) close) as [|x rest] eqn:Ed.
  { apply (f_equal length) in Ed. rewrite length_drop in Ed. simpl in Ed. lia. }
  assert (drop n close = rest) as ->.
  { replace n with ((n - 1) + 1)%nat at 1 by lia.
    rewrite <- drop_drop, Ed. done. }
  unfold to_col. change map with (@fmap list _).
  rewrite <- fmap_drop, Ed. simpl.
  rewrite insert_app_r_alt by (rewrite length_replicate; lia).
  rewrite length_replicate, Nat.sub_diag. done.
Qed.

Lemma ema_length_pos length : (1 ≤ ema_length length)%nat.
Proof.
  unfold ema_length. destruct length as [n|]; [|lia].
  destruct (Z.ltb_spec 0 n); lia.
Qed.


(** The shape of the result on the pandas path, before offset and fill:
    [k] missing rows, the seed [w], then the weighted means of the rest. *)
Lemma ema_shape talib_installed talib_EMA close length talib presma adjust e :
  talib_installed && default true talib = false →
  ema talib_installed talib_EMA close length talib presma None adjust
    no_kwargs = Some e →
  let n := ema_length length in
  let k := if default true presma then (n - 1)%nat else 0%nat in
  ∃ w,
    (if default true presma then w = mean (take n close)
     else close !! 0%nat = Some w) ∧
    (k < List.length close)%nat ∧
    e = replicate k None ++ Some w ::
          ewm_from (span_alpha n) adjust (Some w, 1)
            (to_col (drop (S k) close)).
Proof.
  intros Ht H n k. unfold ema, verify_series, v_series in H.
  fold n in H.
  destruct (Nat.leb_spec n (List.length close)) as [Hn|]; [|discriminate H].
  pose proof (ema_length_pos length) as Hpos. fold n in Hpos.
  assert ((talib_installed &&
           match talib with Some b => b | None => true end) = false) as Ht'.
  { by destruct talib. }
  rewrite Ht' in H. simpl in H. injection H as <-.
  subst k. destruct presma as [[|]|]; simpl.
  - exists (mean (take n close)). split; [done|]. split; [lia|].
    rewrite presma_seed_eq by lia. rewrite ewm_mean_lead.
    by replace (S (n - 1)) with n by lia.
  - destruct close as [|x0 close]; [simpl in Hn; lia|].
    exists x0. split; [done|]. split; [simpl; lia|]. done.
  - exists (mean (take n close)). split; [done|]. split; [lia|].
    rewrite presma_seed_eq by lia. rewrite ewm_mean_lead.
    by replace (S (n - 1)) with n by lia.
Qed.

(** X17. On the pandas path with the SMA seed (the default), without offset
    and fill: the result has the length of close, its first [length - 1]
    rows are missing and row [length - 1] is the mean of the first [length]
    closes. *)
Theorem ema_presma_seed talib_installed talib_EMA close length talib presma
    adjust e :
  talib_installed && default true talib = false →
  default true presma = true →
  ema talib_installed talib_EMA close length talib presma None adjust
    no_kwargs = Some e →
  let n := ema_length length in
  List.length e = List.length close ∧
  (∀ i, (S i < n)%nat → e !! i = Some None) ∧
  e !! (n - 1)%nat = Some (Some (mean (take n close))).
Proof.
  intros Ht Hp H n.
  destruct (ema_shape _ _ _ _ _ _ _ _ Ht H) as (w & Hw & Hk & ->).
  fold n in Hw, Hk. rewrite Hp in Hw, Hk |- *. subst w.
  split_and!.
  - rewrite length_app, length_replicate. simpl.
    rewrite ewm_from_length, length_to_col, length_drop. lia.
  - intros i Hi. rewrite lookup_app_l by (rewrite length_replicate; lia).
    apply lookup_replicate_2. lia.
  - rewrite lookup_app_r by (rewrite length_replicate; lia).
    by rewrite length_replicate, Nat.sub_diag.
Qed.

Lemma ema_presma_seed_witness :
  ∃ e,
    ema false (fun _ _ => []) [1; 2; 3; 4; 5; 6] (Some 3%Z) None None None
      false no_kwargs = Some e ∧
    List.length e = 6%nat ∧
    (∀ i, (S i < 3)%nat → e !! i = Some None) ∧
    e !! 2%nat = Some (Some (mean [1; 2; 3])).
Proof.
  eexists. split; [reflexivity|].
  apply (ema_presma_seed false (fun _ _ => []) [1; 2; 3; 4; 5; 6] (Some 3%Z)
           None None false); reflexivity.
Defined.

(** *** The mean stays between the extremes *)















(** ** eri *)

Import Eri.





(** X21. eri never meets a missing moving average: once its own validation
    has passed, the call of ema with the same period succeeds, so the
    subtraction always has a series to subtract. *)
Theorem eri_ema_available talib_installed talib_EMA high low close length
    offset kw :
  eri talib_installed talib_EMA high low close length offset kw ≠ TypeError.
Proof.
  unfold eri, verify_series, v_series.
  set (n := match length with
            | Some n => if (0 <? n)%Z then Z.to_nat n else 13%nat
            | None => 13%nat
            end).
  assert (1 ≤ n)%nat as Hn.
  { unfold n. destruct length as [z|]; [|lia]. destruct (Z.ltb_spec 0 z); lia. }
  destruct (n <=? List.length high)%nat; [|done].
  destruct (n <=? List.length low)%nat; [|done].
  destruct (Nat.leb_spec n (List.length close)) as [Hc|]; [|done].
  unfold Ema.ema, verify_series, v_series, ema_length.
  destruct (Z.ltb_spec 0 (Z.of_nat n)); [|lia].
  rewrite Nat2Z.id.
  destruct (Nat.leb_spec n (List.length close)); [|lia].
  destruct (get_offset offset =? 0)%Z; done.
Qed.
